(** * A genetic algorithm for continuous minimisation

    Shallow embedding of [code/genetic_algorithm.py] (and of its uncommented
    twin [code/genetic_algorithm_uc.py], which is line for line the same
    program) together with the properties stated about it.

    Modelling choices, all visible in the definitions below:
    - a gene, a fitness value and a rate are rational numbers ([Q]) with
      exact arithmetic: the rounding of a Python [float] is left out where it
      only moves a continuous value; equality of genes is Leibniz equality of
      the representing fractions, so "unchanged" means the very same value,
      not merely an equal one;
    - where the rounding or the overflow of a float decides what the program
      does, the float is the IEEE binary64 number it is ([spec_float] at
      precision 53, every operation rounded to nearest, ties to even): the
      product [len(population) * percent] whose ceiling counts the elites and
      the tournament entrants ([ceil_mul_float] and the functions named
      [..._float]), and the width [b - a] inside [random.uniform(a, b)]
      ([uniform_float]); [ceil_mul] is the same count for a proportion taken
      as a rational number, which every count of [ceil_mul_float] is the
      value of for some proportion;
    - a Python [int] is a [Z];
    - a chromosome is a mutable Python list: it lives in a store ([heap]) and
      is handled through its address ([loc]), so that aliasing and in-place
      updates are those of the program;
    - the population, the elites, the tournament and the mating pool are
      lists of addresses; the only one the program updates through an alias
      is the population inside [tournament_selection], which therefore returns
      the updated population next to its result;
    - the [random] module is a tape of raw outcomes read through a cursor:
      [random.random()] is a 53-bit fraction in [0,1) and [_randbelow n] is a
      number below [n]; every in-range outcome is produced by some tape;
    - a computation ends with a value and a new state ([Ok]), with a Python
      exception ([Raise]), or does not end ([Hang]: the fuel of the only
      [while] loop ran out). [Fault] is a read through an address that the
      store does not hold, which no Python program can do. *)

From Stdlib Require Import ZArith QArith Qround Lia Lqa List Permutation Sorted SpecFloat.
From stdpp Require Import base list.
Import ListNotations.

Close Scope Q_scope.
Open Scope nat_scope.

(** ** Store, random tape and the computation monad *)

(** Addresses and chromosomes. These are notations so that list lemmas apply
    to them as they stand. *)
Abbreviation loc := nat (only parsing).
Abbreviation point := (list Q) (only parsing).

Record state := mkState { heap : list point; cursor : nat }.

Inductive exn := IndexError | ValueError | OverflowError.

Inductive outcome (A : Type) :=
| Ok (a : A) (s : state)
| Raise (e : exn)
| Fault
| Hang.
Arguments Ok {A} a s.
Arguments Raise {A} e.
Arguments Fault {A}.
Arguments Hang {A}.

Definition M (A : Type) := state -> outcome A.

Definition ret {A} (a : A) : M A := fun s => Ok a s.

Definition bind {A B} (m : M A) (k : A -> M B) : M B :=
  fun s => match m s with
           | Ok a s' => k a s'
           | Raise e => Raise e
           | Fault => Fault
           | Hang => Hang
           end.

Definition raise {A} (e : exn) : M A := fun _ => Raise e.

Declare Scope ga_scope.
Delimit Scope ga_scope with ga.
Notation "x <- m ;; k" := (bind m (fun x => k))
  (at level 100, m at next level, right associativity) : ga_scope.
Notation "m ;;; k" := (bind m (fun _ => k))
  (at level 100, right associativity) : ga_scope.
Open Scope ga_scope.

(** [for i in range(n): acc = body(i, acc)], counting from [i]. *)
Fixpoint for_range {T} (n : nat) (i : Z) (body : Z -> T -> M T) (acc : T) : M T :=
  match n with
  | O => ret acc
  | S n' => acc' <- body i acc ;; for_range n' (i + 1)%Z body acc'
  end.

(** [for i in range(k)] for a Python integer [k]: no iteration when [k <= 0]. *)
Definition range_loop {T} (k : Z) (body : Z -> T -> M T) (acc : T) : M T :=
  for_range (Z.to_nat k) 0%Z body acc.

(** *** Python lists *)

Definition len {A} (l : list A) : Z := Z.of_nat (length l).

(** A Python index: negative indices count from the end. *)
Definition norm_index (i n : Z) : option nat :=
  let j := if (i <? 0)%Z then (i + n)%Z else i in
  if ((0 <=? j) && (j <? n))%Z then Some (Z.to_nat j) else None.

(** [l[i]] *)
Definition getitem {A} (l : list A) (i : Z) : M A :=
  match norm_index i (len l) with
  | Some j => match l !! j with Some x => ret x | None => raise IndexError end
  | None => raise IndexError
  end.

(** [l.pop(i)]: the element and the list without it. *)
Definition list_pop {A} (l : list A) (i : Z) : M (A * list A) :=
  match norm_index i (len l) with
  | Some j => match l !! j with
              | Some x => ret (x, delete j l)
              | None => raise IndexError
              end
  | None => raise IndexError
  end.

(** *** Chromosomes in the store *)

(** [[]]: a new empty list object. *)
Definition alloc (p : point) : M loc :=
  fun s => Ok (length (heap s)) (mkState (heap s ++ [p]) (cursor s)).

Definition deref (r : loc) : M point :=
  fun s => match heap s !! r with Some p => Ok p s | None => Fault end.

Definition assign (r : loc) (p : point) : M unit :=
  fun s => match heap s !! r with
           | Some _ => Ok tt (mkState (<[r := p]> (heap s)) (cursor s))
           | None => Fault
           end.

(** [len(r)] *)
Definition len_at (r : loc) : M Z := p <- deref r ;; ret (len p).

(** [r[i]] *)
Definition load (r : loc) (i : Z) : M Q := p <- deref r ;; getitem p i.

(** [r[i] = v] *)
Definition store (r : loc) (i : Z) (v : Q) : M unit :=
  p <- deref r ;;
  match norm_index i (len p) with
  | Some j => assign r (<[j := v]> p)
  | None => raise IndexError
  end.

(** [r.append(v)] *)
Definition append (r : loc) (v : Q) : M unit :=
  p <- deref r ;; assign r (p ++ [v]).

(** *** Floats as the machine has them

    A Python [float] is an IEEE binary64 number: [spec_float] with 53 bits of
    precision and exponents below 1024. [float(n)], [*], [+], [-] and [/]
    round to nearest, ties to even. *)
Definition float_of_int (n : Z) : spec_float := binary_normalize 53 1024 n 0 false.
Definition float_mul (x y : spec_float) : spec_float := SFmul 53 1024 x y.
Definition float_add (x y : spec_float) : spec_float := SFadd 53 1024 x y.
Definition float_sub (x y : spec_float) : spec_float := SFsub 53 1024 x y.
Definition float_div (x y : spec_float) : spec_float := SFdiv 53 1024 x y.

(** [x < y] and [x <= y] on floats. *)
Definition float_ltb (x y : spec_float) : bool := SFltb x y.
Definition float_leb (x y : spec_float) : bool := SFleb x y.

(** The float that a decimal literal stands for, the literal being the
    fraction [num / den] of two integers below 2^53: the float nearest to it. *)
Definition float_literal (num : Z) (den : positive) : spec_float :=
  float_div (float_of_int num) (float_of_int (Zpos den)).

(** The number that a finite float is. *)
Definition float_value (x : spec_float) : option Q :=
  match x with
  | S754_zero _ => Some 0%Q
  | S754_finite s m e =>
      let sm := if s then Zneg m else Zpos m in
      Some (match e with
            | Zneg d => (sm # 2 ^ d)%Q
            | _ => inject_Z (sm * 2 ^ e)
            end)
  | S754_infinity _ | S754_nan => None
  end.

(** The largest finite float. *)
Definition float_max : Q := inject_Z ((2 ^ 53 - 1) * 2 ^ 971).

(** [math.ceil(x)]: [OverflowError] on an infinity, [ValueError] on a NaN. *)
Definition math_ceil (x : spec_float) : M Z :=
  match x with
  | S754_nan => raise ValueError
  | S754_infinity _ => raise OverflowError
  | _ => match float_value x with
         | Some q => ret (Qceiling q)
         | None => raise ValueError
         end
  end.

(** *** The [random] module *)

Section Random.
Variable tape : nat -> N.

Definition next_raw : M N :=
  fun s => Ok (tape (cursor s)) (mkState (heap s) (S (cursor s))).

(** [random.random()]: a multiple of 2^-53 in [0, 1). *)
Definition unit_of (w : N) : Q :=
  Z.of_N (w mod 9007199254740992) # 9007199254740992.

Definition random : M Q := w <- next_raw ;; ret (unit_of w).

(** [random.uniform(a, b)] is [a + (b - a) * random()]; [uniform_of a b w] is
    its value when the raw outcome is [w]. *)
Definition uniform_of (a b : Q) (w : N) : Q := (a + (b - a) * unit_of w)%Q.

Definition uniform (a b : Q) : M Q := u <- random ;; ret (a + (b - a) * u)%Q.

(** [random.random()] as a float, which holds a multiple of 2^-53 exactly,
    and [random.uniform(a, b)] computed on floats. *)
Definition random_float (w : N) : spec_float :=
  binary_normalize 53 1024 (Z.of_N (w mod 9007199254740992)) (-53) false.

Definition uniform_float (a b : spec_float) (w : N) : spec_float :=
  float_add a (float_mul (float_sub b a) (random_float w)).

(** [_randbelow(n)] for [n > 0]. *)
Definition below (n : Z) (w : N) : Z := (Z.of_N w mod n)%Z.

(** [random.randrange(n)]: [ValueError] on an empty range. *)
Definition randrange (n : Z) : M Z :=
  if (0 <? n)%Z then w <- next_raw ;; ret (below n w)
  else raise ValueError.

(** [random.randint(a, b)] is [randrange(a, b + 1)]: [a + _randbelow(b + 1 - a)]. *)
Definition randint (a b : Z) : M Z :=
  let width := (b + 1 - a)%Z in
  if (0 <? width)%Z then w <- next_raw ;; ret (a + below width w)%Z
  else raise ValueError.
End Random.

(** ** The program *)

(** The module-level constants set under [if __name__ == '__main__']. *)
Record globals := mkGlobals {
  POP_SIZE : Z;
  SEARCH_MIN : Q;
  SEARCH_MAX : Q;
  CROSS_RATE : Q;
  MUTAT_RATE : Q
}.

(** Python's [b > a] and [b < a] on floats. *)
Definition Qltb (a b : Q) : bool := negb (Qle_bool b a).

(** [max(a, b)] keeps [a] unless [b > a]; [min(a, b)] keeps [a] unless [b < a]. *)
Definition py_max (a b : Q) : Q := if Qltb a b then b else a.
Definition py_min (a b : Q) : Q := if Qltb b a then b else a.

(** [ceil(n * percent)] for a proportion taken as a rational number. *)
Definition ceil_mul (n : Z) (percent : Q) : Z := Qceiling (inject_Z n * percent).

(** [ceil(n * percent)] as the program computes it, [n] being a length. *)
Definition ceil_mul_float (n : Z) (percent : spec_float) : M Z :=
  math_ceil (float_mul (float_of_int n) percent).

(** [sorted(l, key=...)] on precomputed keys: a stable sort that compares keys
    with [<] only. *)
Fixpoint insert_by {A} (x : Q * A) (l : list (Q * A)) : list (Q * A) :=
  match l with
  | [] => [x]
  | y :: l' => if Qltb (fst y) (fst x) then y :: insert_by x l' else x :: l
  end.

Fixpoint sort_by {A} (l : list (Q * A)) : list (Q * A) :=
  match l with
  | [] => []
  | x :: l' => insert_by x (sort_by l')
  end.

(** The key of every element, in order. *)
Fixpoint keyed (key : point -> Q) (l : list loc) : M (list (Q * loc)) :=
  match l with
  | [] => ret []
  | r :: l' => p <- deref r ;; ks <- keyed key l' ;; ret ((key p, r) :: ks)
  end.

(** [sorted(l, key=key)] for a list of chromosomes. *)
Definition sorted (key : point -> Q) (l : list loc) : M (list loc) :=
  ks <- keyed key l ;; ret (map snd (sort_by ks)).

(** [styb_tang(point)] *)
Definition styb_tang (p : point) : Q :=
  ((1 / 2) * fold_left (fun summ d => summ + (d ^ 4 - 16 * d ^ 2 + 5 * d)) p 0)%Q.

Section Program.
Variable G : globals.
Variable tape : nat -> N.

(** [initialize_population(size, dim, min, max)] *)
Definition initialize_population (size dim : Z) (min max : Q) : M (list loc) :=
  range_loop size (fun _ population =>
    point <- alloc [] ;;
    range_loop dim (fun _ _ =>
      x <- uniform tape min max ;; append point x) tt ;;;
    ret (population ++ [point])) [].

(** [elite_selection(population, percent)] *)
Definition elite_selection (population : list loc) (percent : Q) : M (list loc) :=
  range_loop (ceil_mul (len population) percent) (fun i elites =>
    x <- getitem population i ;; ret (elites ++ [x])) [].

(** [tournament_selection(population, percent)]: the winner and the
    population as the caller sees it afterwards. *)
Definition tournament_selection (population : list loc) (percent : Q)
  : M (loc * list loc) :=
  tp <- range_loop (ceil_mul (len population) percent) (fun _ tp =>
          random_idx <- randint tape 0 (len (snd tp) - 1) ;;
          xp <- list_pop (snd tp) random_idx ;;
          ret (fst tp ++ [fst xp], snd xp)) ([], population) ;;
  tournament <- sorted styb_tang (fst tp) ;;
  winner <- getitem tournament 0 ;;
  ret (winner, snd tp).

(** [elite_selection(population, percent)] and
    [tournament_selection(population, percent)] for the proportion as the
    float it is: the same loops, run [ceil_mul_float] times. *)
Definition elite_selection_float (population : list loc) (percent : spec_float)
  : M (list loc) :=
  k <- ceil_mul_float (len population) percent ;;
  range_loop k (fun i elites =>
    x <- getitem population i ;; ret (elites ++ [x])) [].

Definition tournament_selection_float (population : list loc) (percent : spec_float)
  : M (loc * list loc) :=
  k <- ceil_mul_float (len population) percent ;;
  tp <- range_loop k (fun _ tp =>
          random_idx <- randint tape 0 (len (snd tp) - 1) ;;
          xp <- list_pop (snd tp) random_idx ;;
          ret (fst tp ++ [fst xp], snd xp)) ([], population) ;;
  tournament <- sorted styb_tang (fst tp) ;;
  winner <- getitem tournament 0 ;;
  ret (winner, snd tp).

(** [copy.deepcopy([parent_a, parent_b])]: one copy per distinct object. *)
Definition deepcopy_pair (parent_a parent_b : loc) : M (loc * loc) :=
  pa <- deref parent_a ;;
  a' <- alloc pa ;;
  if Nat.eqb parent_a parent_b then ret (a', a')
  else pb <- deref parent_b ;; b' <- alloc pb ;; ret (a', b').

(** [crossover(parent_a, parent_b)] *)
Definition crossover (parent_a parent_b : loc) : M (loc * loc) :=
  u <- uniform tape 0 1 ;;
  if Qle_bool (CROSS_RATE G) u then deepcopy_pair parent_a parent_b
  else
    child_a <- alloc [] ;;
    child_b <- alloc [] ;;
    n <- len_at parent_a ;;
    pivot <- randint tape 1 (n - 1) ;;
    n <- len_at parent_a ;;
    range_loop n (fun i _ =>
      if (i <? pivot)%Z then
        a <- load parent_a i ;; append child_a a ;;;
        b <- load parent_b i ;; append child_b b
      else
        b <- load parent_b i ;; append child_a b ;;;
        a <- load parent_a i ;; append child_b a) tt ;;;
    ret (child_a, child_b).

(** [mutation(child, s_min, s_max)] *)
Definition mutation (child : loc) (s_min s_max : Q) : M loc :=
  n <- len_at child ;;
  range_loop n (fun i _ =>
    u <- uniform tape 0 1 ;;
    if Qle_bool u (MUTAT_RATE G) then
      diff <- uniform tape (s_min * (1 # 2)) (s_max * (1 # 2)) ;;
      x <- load child i ;; store child i (x + diff)%Q ;;;
      x <- load child i ;; store child i (py_max x s_min) ;;;
      x <- load child i ;; store child i (py_min x s_max)
    else ret tt) tt ;;;
  ret child.

(** The [while] loop of [evolve]; [fuel] bounds the number of times its
    body is entered. *)
Fixpoint evolve_loop (fuel : nat) (mating_pool new_population : list loc)
  : M (list loc) :=
  if (len new_population <? POP_SIZE G)%Z then
    match fuel with
    | O => fun _ => Hang
    | S fuel' =>
        p_a_idx <- randrange tape (len mating_pool) ;;
        p_b_idx <- randrange tape (len mating_pool) ;;
        if (p_a_idx =? p_b_idx)%Z then
          evolve_loop fuel' mating_pool new_population
        else
          parent_a <- getitem mating_pool p_a_idx ;;
          parent_b <- getitem mating_pool p_b_idx ;;
          children <- crossover parent_a parent_b ;;
          child_a <- mutation (fst children) (SEARCH_MIN G) (SEARCH_MAX G) ;;
          child_b <- mutation (snd children) (SEARCH_MIN G) (SEARCH_MAX G) ;;
          evolve_loop fuel' mating_pool (new_population ++ [child_a] ++ [child_b])
    end
  else ret new_population.

(** [evolve(mating_pool, elites)] *)
Definition evolve (fuel : nat) (mating_pool elites : list loc) : M (list loc) :=
  evolve_loop fuel mating_pool ([] ++ elites).

(** The body of the epoch loop of [genetic_algorithm]. *)
Definition generation (fuel : nat) (el_p to_p : Q) (function : point -> Q)
    (population : list loc) : M (list loc) :=
  population <- sorted function population ;;
  elites <- elite_selection population el_p ;;
  let population := drop (length elites) population in
  wp <- tournament_selection population to_p ;;
  let mating_pool := ([] ++ elites) ++ [fst wp] in
  evolve fuel mating_pool elites.

(** The population after [epochs] rounds of the epoch loop. *)
Fixpoint generations (fuel : nat) (el_p to_p : Q) (function : point -> Q)
    (epochs : nat) (population : list loc) : M (list loc) :=
  match epochs with
  | O => ret population
  | S e => population <- generation fuel el_p to_p function population ;;
           generations fuel el_p to_p function e population
  end.

(** The population that [genetic_algorithm] holds when it leaves the epoch
    loop. *)
Definition evolved_population (fuel : nat) (el_p to_p : Q) (dim epochs : Z)
    (function : point -> Q) : M (list loc) :=
  population <- initialize_population (POP_SIZE G) dim (SEARCH_MIN G) (SEARCH_MAX G) ;;
  generations fuel el_p to_p function (Z.to_nat epochs) population.

(** The epoch loop for proportions as the floats they are. *)
Definition generation_float (fuel : nat) (el_p to_p : spec_float)
    (function : point -> Q) (population : list loc) : M (list loc) :=
  population <- sorted function population ;;
  elites <- elite_selection_float population el_p ;;
  let population := drop (length elites) population in
  wp <- tournament_selection_float population to_p ;;
  let mating_pool := ([] ++ elites) ++ [fst wp] in
  evolve fuel mating_pool elites.

Fixpoint generations_float (fuel : nat) (el_p to_p : spec_float)
    (function : point -> Q) (epochs : nat) (population : list loc) : M (list loc) :=
  match epochs with
  | O => ret population
  | S e => population <- generation_float fuel el_p to_p function population ;;
           generations_float fuel el_p to_p function e population
  end.

Definition evolved_population_float (fuel : nat) (el_p to_p : spec_float)
    (dim epochs : Z) (function : point -> Q) : M (list loc) :=
  population <- initialize_population (POP_SIZE G) dim (SEARCH_MIN G) (SEARCH_MAX G) ;;
  generations_float fuel el_p to_p function (Z.to_nat epochs) population.

(** The value [best_fitness] of a population: its best after a final sort. *)
Definition best_fitness (function : point -> Q) (population : list loc) : M Q :=
  population <- sorted function population ;;
  best <- getitem population 0 ;;
  p <- deref best ;;
  ret (function p).

(** [genetic_algorithm(el_p, to_p, dim, epochs, function)]: the value it
    prints. *)
Definition genetic_algorithm (fuel : nat) (el_p to_p : Q) (dim epochs : Z)
    (function : point -> Q) : M Q :=
  population <- evolved_population fuel el_p to_p dim epochs function ;;
  best_fitness function population.
End Program.

Definition start : state := mkState [] 0.

(** ** Notions used in the statements *)

(** [returns m s Q]: from [s], [m] ends with a value and a state in [Q].
    [ensures m s Q]: if [m] ends with a value from [s], they are in [Q]. *)
Definition returns {A} (m : M A) (s : state) (Q : A -> state -> Prop) : Prop :=
  exists a s', m s = Ok a s' /\ Q a s'.

Definition ensures {A} (m : M A) (s : state) (Q : A -> state -> Prop) : Prop :=
  forall a s', m s = Ok a s' -> Q a s'.

(** What the loop of [crossover] builds for a pivot: [front] before the
    pivot, [back] from the pivot on. *)
Definition pivot_splice (pivot : nat) (front back : point) : point :=
  take pivot front ++ drop pivot back.

(** The draws of [mutation]: gene [i] reads its rate draw at
    [trigger_cursor c i] when the call starts with the cursor at [c]; a gene
    that triggers reads its perturbation from the next outcome. *)
Section MutationDraws.
Variable G : globals.
Variable tape : nat -> N.

Definition triggers (c : nat) : bool :=
  Qle_bool (uniform_of 0 1 (tape c)) (MUTAT_RATE G).

Fixpoint trigger_cursor (c i : nat) : nat :=
  match i with
  | O => c
  | S i' => let c' := trigger_cursor c i' in
            if triggers c' then S (S c') else S c'
  end.

(** The value written for a gene [x] whose rate draw, read at [c], triggers. *)
Definition perturbed (s_min s_max : Q) (c : nat) (x : Q) : Q :=
  py_min (py_max (x + uniform_of (s_min * (1 # 2)) (s_max * (1 # 2)) (tape (S c))) s_min)
         s_max.

Definition mutated_gene (s_min s_max : Q) (c i : nat) (x : Q) : Q :=
  if triggers (trigger_cursor c i)
  then perturbed s_min s_max (trigger_cursor c i) x
  else x.
End MutationDraws.

(** The key of the chromosome at an address. *)
Definition key_at (key : point -> Q) (h : list point) (r : loc) : Q :=
  key (default [] (h !! r)).

(** The addresses a store holds. *)
Definition allocated (h : list point) (l : list loc) : Prop :=
  Forall (fun r => r < length h) l.

(** The order of the keys that [sort_by] compares. *)
Definition key_le {A} (x y : Q * A) : Prop := (fst x <= fst y)%Q.

(** What [sorted] returns: addresses in ascending order of key. *)
Definition ascending (key : point -> Q) (h : list point) (l : list loc) : Prop :=
  StronglySorted (fun a b => (key_at key h a <= key_at key h b)%Q) l.

(** [m] is the least value of the fitness function over a population. *)
Definition least_fitness (function : point -> Q) (h : list point)
    (population : list loc) (m : Q) : Prop :=
  (exists b, b ∈ population /\ m = key_at function h b) /\
  forall y, y ∈ population -> (m <= key_at function h y)%Q.


(** Every gene of every chromosome of a store satisfies [P]. *)
Definition heap_all (P : Q -> Prop) (h : list point) : Prop :=
  Forall (Forall P) h.

(** [h'] holds every chromosome of [h], unchanged, at the same address. *)
Definition frame (h h' : list point) : Prop :=
  length h <= length h' /\ forall r, r < length h -> h' !! r = h !! r.

(** The value and the state of a computation that returned. *)
Definition value_of {A} (o : outcome A) (d : A) : A :=
  match o with Ok a _ => a | _ => d end.
Definition state_of {A} (o : outcome A) : state :=
  match o with Ok _ s => s | _ => start end.

(** ** Concrete configurations, stores and tapes *)

(** The constants of the script, and the same with a population of four. *)
Definition main_globals : globals := mkGlobals 200 (-5) 5 (95 # 100) (5 # 100).
Definition small_globals : globals := mkGlobals 4 (-5) 5 (95 # 100) (5 # 100).

(** A tape given by its first outcomes; the rest of the tape repeats [d]. *)
Definition tape_of (l : list N) (d : N) : nat -> N := fun i => nth i l d.

(** Raw outcomes whose fraction is 0 and just below 1, and those of the
    fractions 0, 1/8, ..., 7/8. *)
Definition lo : N := 0.
Definition hi : N := 9007199254740991.
Definition eighth (k : N) : N := (k * 1125899906842624)%N.

(** Two chromosomes of dimension 4 in the store. *)
Definition two_parents : state :=
  mkState [[1; 2; 3; 4]; [5; 6; 7; 8]]%Q 0.

(** Read by [crossover]: recombination (the fraction 0 is below the crossover
    rate) with pivot [1 + 1 mod 3 = 2]. *)
Definition tape_recombine : nat -> N := tape_of [lo; 1%N] lo.

(** Read by [crossover]: no recombination (the fraction just below 1 is not
    below the crossover rate). Read by [mutation] on four genes: only the
    last gene mutates, with the largest perturbation. *)
Definition tape_skip : nat -> N := tape_of [hi; hi; hi; lo; hi] hi.

(** Three chromosomes of dimension 2 and a tape that draws the positions 1
    and then 0 of what is left. *)
Definition three_points : state :=
  mkState [[0; 0]; [1; 1]; [-3; -3]]%Q 0.
Definition tape_tournament : nat -> N := tape_of [1; 0]%N lo.

(** Read by [mutation] on two genes: the first gene mutates with the lowest
    perturbation, the second does not mutate. *)
Definition tape_mutate : nat -> N := tape_of [lo; lo; hi] hi.

(** A fitness function that is not [styb_tang]: the sum of the coordinates. *)
Definition coordinate_sum (p : point) : Q := fold_left Qplus p 0%Q.

(** Two chromosomes that [styb_tang] and [coordinate_sum] rank in opposite
    orders. *)
Definition rival_points : state :=
  mkState [[-3; -3]; [-4; -4]]%Q 0.

(** A run of one generation of [small_globals] in dimension 2: eight
    coordinates, two tournament draws, and two rounds of the loop of [evolve],
    each made of two parent indices (0 and 1), a rate draw that recombines, a
    pivot draw, and two rate draws per child that do not mutate. *)
Definition tape_generation : nat -> N :=
  tape_of ([eighth 1; eighth 6; eighth 2; eighth 3; eighth 7; eighth 4; eighth 0; eighth 5]
           ++ [0; 0]
           ++ [0; 1; lo; 0; hi; hi; hi; hi]
           ++ [0; 1; lo; 0; hi; hi; hi; hi])%N hi.

(** The first generation of [small_globals] on [tape_generation]. *)
Definition first_generation : outcome (list loc) :=
  evolved_population small_globals tape_generation 2 (1 # 4) (1 # 2) 2 (Z.of_nat 1)
    styb_tang start.

(** ** Further configurations *)

(** Rates at which crossover and mutation always happen, and rates at which
    they never do. *)
Definition always_globals : globals := mkGlobals 4 (-5) 5 1 1.
Definition never_globals : globals := mkGlobals 4 (-5) 5 0 (-1).

(** ** The initial population in closed form *)

(** The chromosomes that [initialize_population] creates when it starts with
    the cursor at [c]: [n] rows of [d] coordinates, read from the tape row by
    row. *)
Definition new_points (tape : nat -> N) (min max : Q) (c n d : nat) : list point :=
  map (fun i => map (fun j => uniform_of min max (tape (c + i * d + j))) (seq 0 d))
      (seq 0 n).

(** ** Further runs *)

(** Two rounds of the loop of [evolve]: parent indices 0 and 1, a rate draw
    that recombines, a pivot draw, and two rate draws per child that do not
    mutate. *)
Definition tape_evolve : nat -> N :=
  tape_of ([0; 1; lo; 0; hi; hi; hi; hi] ++ [0; 1; lo; 0; hi; hi; hi; hi])%N hi.

(** [evolve] on a mating pool of two with one elite, for [small_globals]. *)
Definition evolve_run : outcome (list loc) :=
  evolve small_globals tape_evolve 2 [0; 1] [2] three_points.

(** The initial population of [small_globals] on [tape_generation], and its
    first generation. *)
Definition initial_run : outcome (list loc) :=
  initialize_population tape_generation 4 2 (-5) 5 start.

(** Two generations of [small_globals] with two elites out of four. *)
Definition even_run : outcome (list loc) :=
  evolved_population small_globals tape_generation 3 (1 # 2) (1 # 2) 2 2 styb_tang start.

(** The same two runs with the proportions as floats: a quarter and a half
    for one generation, a half and a half for two. *)
Definition generation_run_float : outcome (list loc) :=
  generation_float small_globals tape_generation 2 (float_literal 1 4) (float_literal 1 2)
    styb_tang (value_of initial_run []) (state_of initial_run).
Definition even_run_float : outcome (list loc) :=
  evolved_population_float small_globals tape_generation 3
    (float_literal 1 2) (float_literal 1 2) 2 2 styb_tang start.

(** The search space from -1e308 to 1e308, as floats. *)
Definition wide_min : spec_float := float_of_int (- 10 ^ 308).
Definition wide_max : spec_float := float_of_int (10 ^ 308).

(** Every chromosome of a store has [d] genes. *)
Definition heap_dim (d : nat) (h : list point) : Prop :=
  Forall (fun p => length p = d) h.

(** * Properties *)

(** ** The program on concrete inputs *)

Example styb_tang_value : (styb_tang [-3; -3] == -78)%Q.
Proof. reflexivity. Qed.

(** The script's proportions on its population of 200: two elites, then four
    tournament entrants out of the remaining 198. *)
Example main_counts :
  ceil_mul 200 (1 # 100) = 2%Z /\ ceil_mul 198 (2 # 100) = 4%Z.
Proof. split; reflexivity. Qed.

Example sorted_run :
  sorted styb_tang [0; 1; 2] three_points = Ok [2; 1; 0] three_points.
Proof. vm_compute. reflexivity. Qed.

(** Equal keys keep their order. *)
Example sort_by_stable :
  map snd (sort_by [(1%Q, 0); (0%Q, 1); (1%Q, 2); (0%Q, 3)]) = [1; 3; 0; 2].
Proof. reflexivity. Qed.

Example elite_selection_run :
  elite_selection [2; 1; 0] (1 # 2) three_points = Ok [2; 1] three_points.
Proof. vm_compute. reflexivity. Qed.

Example initialize_population_run :
  initialize_population (tape_of [eighth 1; eighth 6] lo) 1 2 (-5) 5 start =
    Ok [0] (mkState [[-5 + (5 - -5) * unit_of (eighth 1);
                      -5 + (5 - -5) * unit_of (eighth 6)]]%Q 2).
Proof. reflexivity. Qed.

(** ** Reasoning about computations *)

Lemma bind_Ok {A B} (m : M A) (k : A -> M B) s b s'' :
  bind m k s = Ok b s'' <-> exists a s', m s = Ok a s' /\ k a s' = Ok b s''.
Proof.
  unfold bind. destruct (m s) as [a s'| | |]; split.
  - eauto.
  - intros (a0 & s0 & [= -> ->] & H). exact H.
  - discriminate.
  - intros (? & ? & [=] & _).
  - discriminate.
  - intros (? & ? & [=] & _).
  - discriminate.
  - intros (? & ? & [=] & _).
Qed.

Lemma bind_eq {A B} (m : M A) (k : A -> M B) s a s' :
  m s = Ok a s' -> bind m k s = k a s'.
Proof. unfold bind. now intros ->. Qed.

Lemma returns_ret {A} (a : A) s (Q : A -> state -> Prop) : Q a s -> returns (ret a) s Q.
Proof. intros H. exists a, s. split; [reflexivity | exact H]. Qed.

Lemma returns_bind {A B} (m : M A) (k : A -> M B) s Q :
  returns m s (fun a s' => returns (k a) s' Q) -> returns (bind m k) s Q.
Proof.
  intros (a & s' & Hm & b & s'' & Hk & HQ).
  exists b, s''. split; [|exact HQ]. rewrite (bind_eq _ _ _ _ _ Hm). exact Hk.
Qed.

Lemma returns_mono {A} (m : M A) s (Q Q' : A -> state -> Prop) :
  returns m s Q -> (forall a s', Q a s' -> Q' a s') -> returns m s Q'.
Proof. intros (a & s' & Hm & HQ) H. exists a, s'. auto. Qed.

Lemma ensures_ret {A} (a : A) s (Q : A -> state -> Prop) : Q a s -> ensures (ret a) s Q.
Proof. intros H b s' [= <- <-]. exact H. Qed.

Lemma ensures_bind {A B} (m : M A) (k : A -> M B) s Q :
  ensures m s (fun a s' => ensures (k a) s' Q) -> ensures (bind m k) s Q.
Proof.
  intros H b s'' Hb. apply bind_Ok in Hb as (a & s' & Hm & Hk).
  exact (H a s' Hm b s'' Hk).
Qed.

Lemma ensures_mono {A} (m : M A) s (Q Q' : A -> state -> Prop) :
  ensures m s Q -> (forall a s', Q a s' -> Q' a s') -> ensures m s Q'.
Proof. intros H HQ a s' Hm. auto. Qed.

(** Loop invariants for [for i in range(...)]. *)
Lemma returns_for_range {T} (I : Z -> T -> state -> Prop) body :
  forall n i (acc : T) s,
    I i acc s ->
    (forall j a t, (i <= j < i + Z.of_nat n)%Z -> I j a t ->
                   returns (body j a) t (I (j + 1)%Z)) ->
    returns (for_range n i body acc) s (I (i + Z.of_nat n)%Z).
Proof.
  induction n as [|n IH]; intros i acc s Hi Hbody; simpl for_range.
  - apply returns_ret. now replace (i + Z.of_nat 0)%Z with i by lia.
  - apply returns_bind.
    eapply returns_mono; [apply (Hbody i acc s); [lia | exact Hi]|].
    intros a t Ha.
    replace (i + Z.of_nat (S n))%Z with ((i + 1) + Z.of_nat n)%Z by lia.
    apply IH; [exact Ha|]. intros j b u Hj. apply Hbody. lia.
Qed.

Lemma ensures_for_range {T} (I : Z -> T -> state -> Prop) body :
  forall n i (acc : T) s,
    I i acc s ->
    (forall j a t, (i <= j < i + Z.of_nat n)%Z -> I j a t ->
                   ensures (body j a) t (I (j + 1)%Z)) ->
    ensures (for_range n i body acc) s (I (i + Z.of_nat n)%Z).
Proof.
  induction n as [|n IH]; intros i acc s Hi Hbody; simpl for_range.
  - apply ensures_ret. now replace (i + Z.of_nat 0)%Z with i by lia.
  - apply ensures_bind.
    eapply ensures_mono; [apply (Hbody i acc s); [lia | exact Hi]|].
    intros a t Ha.
    replace (i + Z.of_nat (S n))%Z with ((i + 1) + Z.of_nat n)%Z by lia.
    apply IH; [exact Ha|]. intros j b u Hj. apply Hbody. lia.
Qed.

(** ** Python lists and the store *)

Lemma norm_index_nat (i n : nat) : i < n -> norm_index (Z.of_nat i) (Z.of_nat n) = Some i.
Proof.
  intros H. unfold norm_index.
  destruct (Z.ltb_spec (Z.of_nat i) 0); [lia|].
  destruct (Z.leb_spec 0 (Z.of_nat i)); [|lia].
  destruct (Z.ltb_spec (Z.of_nat i) (Z.of_nat n)); [|lia].
  simpl. now rewrite Nat2Z.id.
Qed.

Lemma getitem_nat {A} (l : list A) (i : nat) x s :
  l !! i = Some x -> getitem l (Z.of_nat i) s = Ok x s.
Proof.
  intros H. unfold getitem, len.
  rewrite norm_index_nat by (eapply lookup_lt_Some; eauto).
  now rewrite H.
Qed.

Lemma getitem_Ok {A} (l : list A) i x s s' :
  getitem l i s = Ok x s' -> s' = s /\ x ∈ l.
Proof.
  unfold getitem. destruct (norm_index i (len l)) as [j|]; [|discriminate].
  destruct (l !! j) as [y|] eqn:E; [|discriminate].
  intros [= <- <-]. split; [reflexivity|]. eapply list_elem_of_lookup_2; eauto.
Qed.

Lemma getitem_nonneg_Ok {A} (l : list A) i x s s' :
  (0 <= i)%Z -> getitem l i s = Ok x s' -> s' = s /\ l !! Z.to_nat i = Some x.
Proof.
  intros Hi. unfold getitem, norm_index.
  destruct (Z.ltb_spec i 0); [lia|].
  destruct ((0 <=? i)%Z && (i <? len l)%Z); [|discriminate].
  destruct (l !! Z.to_nat i) as [y|] eqn:E; [|discriminate].
  now intros [= <- <-].
Qed.

Lemma deref_eq r p s : heap s !! r = Some p -> deref r s = Ok p s.
Proof. unfold deref. now intros ->. Qed.

Lemma len_at_eq r p s : heap s !! r = Some p -> len_at r s = Ok (len p) s.
Proof. intros H. unfold len_at. now rewrite (bind_eq _ _ _ _ _ (deref_eq _ _ _ H)). Qed.

Lemma load_eq r p (i : nat) x s :
  heap s !! r = Some p -> p !! i = Some x -> load r (Z.of_nat i) s = Ok x s.
Proof.
  intros Hr Hi. unfold load. rewrite (bind_eq _ _ _ _ _ (deref_eq _ _ _ Hr)).
  now apply getitem_nat.
Qed.

Lemma assign_eq r p q s :
  heap s !! r = Some p -> assign r q s = Ok tt (mkState (<[r := q]> (heap s)) (cursor s)).
Proof. unfold assign. now intros ->. Qed.

Lemma store_eq r p (i : nat) v s :
  heap s !! r = Some p -> i < length p ->
  store r (Z.of_nat i) v s = Ok tt (mkState (<[r := <[i := v]> p]> (heap s)) (cursor s)).
Proof.
  intros Hr Hi. unfold store. rewrite (bind_eq _ _ _ _ _ (deref_eq _ _ _ Hr)).
  unfold len. rewrite norm_index_nat by exact Hi. now apply (assign_eq r p).
Qed.

Lemma append_eq r p v s :
  heap s !! r = Some p ->
  append r v s = Ok tt (mkState (<[r := p ++ [v]]> (heap s)) (cursor s)).
Proof.
  intros Hr. unfold append. rewrite (bind_eq _ _ _ _ _ (deref_eq _ _ _ Hr)).
  now apply (assign_eq r p).
Qed.

(** ** The random module *)

Lemma unit_of_range w : (0 <= unit_of w /\ unit_of w < 1)%Q.
Proof.
  pose proof (N.mod_upper_bound w 9007199254740992 ltac:(discriminate)) as H.
  unfold unit_of, Qle, Qlt. cbn [Qnum Qden].
  set (r := (w mod 9007199254740992)%N) in *. lia.
Qed.

Lemma uniform_unit w : (uniform_of 0 1 w == unit_of w)%Q.
Proof. unfold uniform_of. ring. Qed.

Lemma below_range n w : (0 < n)%Z -> (0 <= below n w < n)%Z.
Proof. intros H. unfold below. apply Z.mod_pos_bound. exact H. Qed.

Lemma uniform_eq tape a b s :
  uniform tape a b s = Ok (uniform_of a b (tape (cursor s))) (mkState (heap s) (S (cursor s))).
Proof. reflexivity. Qed.

Lemma randint_eq tape a b s :
  (a <= b)%Z ->
  randint tape a b s = Ok (a + below (b + 1 - a) (tape (cursor s)))%Z
                          (mkState (heap s) (S (cursor s))).
Proof.
  intros H. unfold randint. destruct (Z.ltb_spec 0 (b + 1 - a)); [reflexivity | lia].
Qed.

Lemma randint_empty {tape} a b s : (b < a)%Z -> randint tape a b s = Raise ValueError.
Proof.
  intros H. unfold randint. destruct (Z.ltb_spec 0 (b + 1 - a)); [lia | reflexivity].
Qed.

(** ** Crossover, exactly *)

Lemma pivot_splice_lookup p (a b : point) i :
  length a = length b ->
  pivot_splice p a b !! i = if i <? p then a !! i else b !! i.
Proof.
  intros Hl. unfold pivot_splice.
  destruct (Nat.ltb_spec i p) as [H|H].
  - destruct (Nat.lt_ge_cases i (length a)) as [Hi|Hi].
    + rewrite lookup_app_l by (rewrite length_take; lia). now apply lookup_take_lt.
    + rewrite (lookup_ge_None_2 a) by lia. apply lookup_ge_None_2.
      rewrite length_app, length_take, length_drop. lia.
  - destruct (Nat.lt_ge_cases p (length a)) as [Hp|Hp].
    + rewrite lookup_app_r by (rewrite length_take; lia).
      rewrite length_take, lookup_drop. f_equal. lia.
    + rewrite (lookup_ge_None_2 b) by lia. apply lookup_ge_None_2.
      rewrite length_app, length_take, length_drop. lia.
Qed.

Lemma pivot_splice_length p (a b : point) :
  length a = length b -> length (pivot_splice p a b) = length a.
Proof. intros H. unfold pivot_splice. rewrite length_app, length_take, length_drop. lia. Qed.

Section Crossover.
Variable G : globals.
Variable tape : nat -> N.

Lemma crossover_skip a b pa pb s :
heap s !! a = Some pa -> heap s !! b = Some pb ->
Qle_bool (CROSS_RATE G) (uniform_of 0 1 (tape (cursor s))) = true ->
crossover G tape a b s =
  Ok (length (heap s), if Nat.eqb a b then length (heap s) else S (length (heap s)))
     (mkState (heap s ++ pa :: (if Nat.eqb a b then [] else [pb])) (S (cursor s))).
Proof.
intros Ha Hb Hu. unfold crossover.
rewrite (bind_eq _ _ _ _ _ (uniform_eq _ _ _ _)), Hu.
unfold deepcopy_pair.
erewrite bind_eq by (apply deref_eq; simpl; exact Ha).
unfold alloc at 1. unfold bind at 1. cbn [heap cursor].
destruct (Nat.eqb a b); [reflexivity|].
erewrite bind_eq by (apply deref_eq; simpl; rewrite lookup_app_l; [exact Hb | eapply lookup_lt_Some; eauto]).
unfold alloc, bind, ret. cbn [heap cursor]. rewrite length_app, <- app_assoc. simpl.
now rewrite Nat.add_1_r.
Qed.

Lemma crossover_recombine a b pa pb s :
heap s !! a = Some pa -> heap s !! b = Some pb ->
length pa = length pb -> 2 <= length pa ->
Qle_bool (CROSS_RATE G) (uniform_of 0 1 (tape (cursor s))) = false ->
let pivot := Z.to_nat (1 + below (len pa - 1) (tape (S (cursor s)))) in
crossover G tape a b s =
  Ok (length (heap s), S (length (heap s)))
     (mkState (heap s ++ [pivot_splice pivot pa pb; pivot_splice pivot pb pa])
              (S (S (cursor s)))).
Proof.
intros Ha Hb Hl Hn Hu pivot. unfold crossover.
rewrite (bind_eq _ _ _ _ _ (uniform_eq _ _ _ _)), Hu.
unfold alloc at 1. unfold bind at 1. cbn [heap cursor].
unfold alloc at 1. unfold bind at 1. cbn [heap cursor].
rewrite length_app, <- app_assoc. simpl length. simpl app at 2.
rewrite Nat.add_1_r.
set (h := heap s) in *. set (c := cursor s) in *.
assert (Ha' : forall x y, (h ++ [x; y]) !! a = Some pa).
{ intros. rewrite lookup_app_l; [exact Ha | eapply lookup_lt_Some; eauto]. }
assert (Hb' : forall x y, (h ++ [x; y]) !! b = Some pb).
{ intros. rewrite lookup_app_l; [exact Hb | eapply lookup_lt_Some; eauto]. }
erewrite bind_eq by (apply len_at_eq; apply Ha').
erewrite bind_eq by (apply randint_eq; unfold len; lia).
cbn [heap cursor].
erewrite bind_eq by (apply len_at_eq; apply Ha').
replace (len pa - 1 + 1 - 1)%Z with (len pa - 1)%Z by lia.
pose proof (below_range (len pa - 1) (tape (S c)) ltac:(unfold len; lia)) as Hp.
fold pivot in Hp |- *.
set (A := pivot_splice pivot pa pb). set (B := pivot_splice pivot pb pa).
unfold range_loop, len. rewrite Nat2Z.id.
pose (I := fun (j : Z) (_ : unit) (t : state) =>
             t = mkState (h ++ [take (Z.to_nat j) A; take (Z.to_nat j) B]) (S (S c))).
pose proof (fun body => returns_for_range I body (length pa) 0%Z tt
              (mkState (h ++ [[]; []]) (S (S c))) eq_refl) as HL.
match goal with |- bind (for_range _ _ ?body _) _ _ = _ => specialize (HL body) end.
destruct HL as (u & t & Hfor & Ht).
- intros j [] t Hj ->. assert (exists i, j = Z.of_nat i) as [i ->] by (exists (Z.to_nat j); lia).
  assert (Hi : i < length pa) by lia.
  destruct (lookup_lt_is_Some_2 pa i Hi) as [x Hx].
  destruct (lookup_lt_is_Some_2 pb i ltac:(lia)) as [y Hy].
  assert (HA : A !! i = Some (if i <? pivot then x else y)).
  { unfold A. rewrite pivot_splice_lookup by exact Hl. now destruct (i <? pivot). }
  assert (HB : B !! i = Some (if i <? pivot then y else x)).
  { unfold B. rewrite pivot_splice_lookup by (symmetry; exact Hl). now destruct (i <? pivot). }
  unfold I. replace (Z.to_nat (Z.of_nat i + 1)) with (S i) by lia. rewrite Nat2Z.id.
  rewrite (take_S_r _ _ _ HA), (take_S_r _ _ _ HB).
  assert (Hins1 : forall u v w, <[length h := u]> (h ++ [v; w]) = h ++ [u; w]).
  { intros. rewrite insert_app_r_alt by lia. now rewrite Nat.sub_diag. }
  assert (Hins2 : forall u v w, <[S (length h) := u]> (h ++ [v; w]) = h ++ [v; u]).
  { intros. rewrite insert_app_r_alt by lia.
    now replace (S (length h) - length h) with 1 by lia. }
  assert (Hl1 : forall v w, (h ++ [v; w]) !! length h = Some v).
  { intros. rewrite lookup_app_r by lia. now rewrite Nat.sub_diag. }
  assert (Hl2 : forall v w, (h ++ [v; w]) !! S (length h) = Some w).
  { intros. rewrite lookup_app_r by lia.
    now replace (S (length h) - length h) with 1 by lia. }
  assert (Hlt : (Z.of_nat i <? 1 + below (Z.of_nat (length pa) - 1) (tape (S c)))%Z = (i <? pivot)).
  { unfold pivot, len. destruct (Nat.ltb_spec i (Z.to_nat (1 + below (Z.of_nat (length pa) - 1) (tape (S c)))));
      [apply Z.ltb_lt | apply Z.ltb_ge]; unfold len in Hp; lia. }
  unfold returns. cbv beta. rewrite Hlt.
  destruct (i <? pivot).
  + erewrite bind_eq by (eapply load_eq; [apply Ha' | exact Hx]).
    erewrite bind_eq by (eapply append_eq; apply Hl1).
    cbn [heap cursor]. rewrite Hins1.
    erewrite bind_eq by (eapply load_eq; [apply Hb' | exact Hy]).
    erewrite append_eq by (apply Hl2). cbn [heap cursor]. rewrite Hins2.
    eexists _, _. split; reflexivity.
  + erewrite bind_eq by (eapply load_eq; [apply Hb' | exact Hy]).
    erewrite bind_eq by (eapply append_eq; apply Hl1).
    cbn [heap cursor]. rewrite Hins1.
    erewrite bind_eq by (eapply load_eq; [apply Ha' | exact Hx]).
    erewrite append_eq by (apply Hl2). cbn [heap cursor]. rewrite Hins2.
    eexists _, _. split; reflexivity.
- rewrite (bind_eq _ _ _ _ _ Hfor). unfold I in Ht. subst t. unfold ret.
  replace (Z.to_nat (0 + Z.of_nat (length pa))) with (length pa) by lia.
  rewrite !take_ge; [reflexivity| |].
  + unfold B. rewrite pivot_splice_length; [lia | now symmetry].
  + unfold A. rewrite pivot_splice_length; [lia | exact Hl].
Qed.
End Crossover.

(** ** Mutation, exactly *)

Section Mutation.
Variable G : globals.
Variable tape : nat -> N.

Lemma mutation_exact child p s_min s_max s :
  heap s !! child = Some p ->
  mutation G tape child s_min s_max s =
    Ok child (mkState (<[child := imap (mutated_gene G tape s_min s_max (cursor s)) p]> (heap s))
                      (trigger_cursor G tape (cursor s) (length p))).
Proof.
  intros Hc. unfold mutation.
  erewrite bind_eq by (apply len_at_eq; exact Hc).
  destruct s as [h c]. cbn [heap cursor] in *.
  assert (Hlt : child < length h) by (eapply lookup_lt_Some; eauto).
  pose (P := fun j : nat => imap (fun i x => if i <? j then mutated_gene G tape s_min s_max c i x else x) p).
  assert (HP : forall j i, P j !! i = (fun x => if i <? j then mutated_gene G tape s_min s_max c i x else x) <$> p !! i).
  { intros. unfold P. now rewrite list_lookup_imap. }
  pose (I := fun (j : Z) (_ : unit) (t : state) =>
               t = mkState (<[child := P (Z.to_nat j)]> h) (trigger_cursor G tape c (Z.to_nat j))).
  unfold range_loop, len. rewrite Nat2Z.id.
  pose proof (fun body => returns_for_range I body (length p) 0%Z tt (mkState h c)) as HL.
  match goal with |- bind (for_range _ _ ?body _) _ _ = _ => specialize (HL body) end.
  destruct HL as (u & t & Hfor & Ht).
  - unfold I. simpl. f_equal. symmetry. apply list_insert_id. rewrite Hc. f_equal.
    apply list_eq. intros i. rewrite HP. destruct (p !! i); reflexivity.
  - intros j [] t Hj ->.
    assert (exists i, j = Z.of_nat i) as [i ->] by (exists (Z.to_nat j); lia).
    assert (Hi : i < length p) by lia.
    destruct (lookup_lt_is_Some_2 p i Hi) as [x Hx].
    unfold I. replace (Z.to_nat (Z.of_nat i + 1)) with (S i) by lia. rewrite Nat2Z.id.
    set (ci := trigger_cursor G tape c i).
    assert (HPi : P i !! i = Some x).
    { rewrite HP, Hx. simpl. now rewrite Nat.ltb_irrefl. }
    assert (HPl : forall v, i < length (<[i := v]> (P i))).
    { intros. rewrite length_insert. eapply lookup_lt_Some; eauto. }
    assert (HPS : P (S i) = <[i := mutated_gene G tape s_min s_max c i x]> (P i)).
    { apply list_eq. intros k. rewrite HP. destruct (Nat.eq_dec k i) as [->|Hk].
      - rewrite list_lookup_insert_eq by (eapply lookup_lt_Some; eauto).
        rewrite Hx. simpl. destruct (Nat.ltb_spec i (S i)); [reflexivity | lia].
      - rewrite list_lookup_insert_ne by congruence. rewrite HP.
        destruct (p !! k); [simpl|reflexivity].
        destruct (Nat.ltb_spec k (S i)), (Nat.ltb_spec k i); try reflexivity; lia. }
    assert (Hh : forall q, <[child := q]> h !! child = Some q).
    { intros. now apply list_lookup_insert_eq. }
    unfold returns. cbv beta.
    rewrite (bind_eq _ _ _ _ _ (uniform_eq _ _ _ _)). cbn [heap cursor].
    rewrite HPS. unfold mutated_gene. fold ci. cbn [trigger_cursor]. fold ci.
    unfold triggers. destruct (Qle_bool (uniform_of 0 1 (tape ci)) (MUTAT_RATE G)).
    + rewrite (bind_eq _ _ _ _ _ (uniform_eq _ _ _ _)). cbn [heap cursor].
      erewrite bind_eq by (eapply load_eq; [apply Hh | exact HPi]).
      erewrite bind_eq by (eapply store_eq; [apply Hh | eapply lookup_lt_Some; eauto]).
      cbn [heap cursor]. rewrite list_insert_insert_eq.
      erewrite bind_eq by (eapply load_eq; [apply Hh | apply list_lookup_insert_eq; eapply lookup_lt_Some; eauto]).
      erewrite bind_eq by (eapply store_eq; [apply Hh | apply HPl]).
      cbn [heap cursor]. rewrite !list_insert_insert_eq.
      erewrite bind_eq by (eapply load_eq; [apply Hh | apply list_lookup_insert_eq; eapply lookup_lt_Some; eauto]).
      erewrite store_eq by (first [apply Hh | apply HPl]).
      cbn [heap cursor]. rewrite !list_insert_insert_eq.
      eexists _, _. split; reflexivity.
    + rewrite (list_insert_id (P i) i x HPi).
      eexists _, _. split; reflexivity.
  - rewrite (bind_eq _ _ _ _ _ Hfor). unfold I in Ht. subst t. unfold ret.
    replace (Z.to_nat (0 + Z.of_nat (length p))) with (length p) by lia.
    do 3 f_equal. apply list_eq. intros i. rewrite HP, list_lookup_imap.
    destruct (p !! i) eqn:E; [simpl|reflexivity].
    apply lookup_lt_Some in E. destruct (Nat.ltb_spec i (length p)); [reflexivity | lia].
Qed.
End Mutation.

(** ** Crossover: pivot, conservation, identity *)

Lemma crossover_short G tape a b pa s :
  heap s !! a = Some pa -> length pa < 2 ->
  Qle_bool (CROSS_RATE G) (uniform_of 0 1 (tape (cursor s))) = false ->
  crossover G tape a b s = Raise ValueError.
Proof.
  intros Ha Hn Hu. unfold crossover.
  rewrite (bind_eq _ _ _ _ _ (uniform_eq _ _ _ _)), Hu.
  unfold alloc at 1. unfold bind at 1. cbn [heap cursor].
  unfold alloc at 1. unfold bind at 1. cbn [heap cursor].
  erewrite bind_eq.
  2:{ apply len_at_eq. cbn [heap]. rewrite !lookup_app_l; [exact Ha | |].
      - eapply lookup_lt_Some; eauto.
      - rewrite length_app. apply lookup_lt_Some in Ha. lia. }
  unfold bind. rewrite randint_empty; [reflexivity | unfold len; lia].
Qed.

(** C6, crossover pivot property. When [crossover] recombines two parents of
    the same length [dim >= 2], the pivot [p] it draws lies in [1, dim - 1]
    and, at every index [i], child A holds parent A's gene and child B holds
    parent B's gene when [i < p], and they hold each other's parent's gene
    when [i >= p]. *)
Theorem crossover_pivot_property G tape a b (pa pb : list Q) s :
  heap s !! a = Some pa -> heap s !! b = Some pb ->
  length pa = length pb -> 2 <= length pa ->
  Qle_bool (CROSS_RATE G) (uniform_of 0 1 (tape (cursor s))) = false ->
  exists (p : nat) child_a child_b s' (ca cb : list Q),
    randint tape 1 (len pa - 1) (mkState (heap s) (S (cursor s)))
      = Ok (Z.of_nat p) (mkState (heap s) (S (S (cursor s)))) /\
    1 <= p <= length pa - 1 /\
    crossover G tape a b s = Ok (child_a, child_b) s' /\
    heap s' !! child_a = Some ca /\ heap s' !! child_b = Some cb /\
    length ca = length pa /\ length cb = length pa /\
    forall i x y, pa !! i = Some x -> pb !! i = Some y ->
      ca !! i = Some (if i <? p then x else y) /\
      cb !! i = Some (if i <? p then y else x).
Proof.
  intros Ha Hb Hl Hn Hu.
  pose proof (crossover_recombine G tape a b pa pb s Ha Hb Hl Hn Hu) as Hc.
  cbv zeta in Hc.
  pose proof (below_range (len pa - 1) (tape (S (cursor s))) ltac:(unfold len; lia)) as Hp.
  set (p := Z.to_nat (1 + below (len pa - 1) (tape (S (cursor s))))) in *.
  exists p, (length (heap s)), (S (length (heap s))). eexists _, _, _.
  split; [|split; [|split; [exact Hc|]]].
  - rewrite randint_eq by (unfold len; lia). cbn [heap cursor]. do 2 f_equal.
    unfold p. replace (len pa - 1 + 1 - 1)%Z with (len pa - 1)%Z by lia. lia.
  - unfold p, len in *. lia.
  - cbn [heap]. split; [|split; [|split; [|split]]].
    + rewrite lookup_app_r by lia. rewrite Nat.sub_diag. reflexivity.
    + rewrite lookup_app_r by lia. replace (S (length (heap s)) - length (heap s)) with 1 by lia.
      reflexivity.
    + now apply pivot_splice_length.
    + rewrite pivot_splice_length; [now symmetry | now symmetry].
    + intros i x y Hx Hy. rewrite !pivot_splice_lookup by (exact Hl || now symmetry).
      destruct (i <? p); auto.
Qed.

Lemma crossover_pivot_witness :
  exists (p : nat) child_a child_b s' (ca cb : list Q),
    randint tape_recombine 1 (len [1; 2; 3; 4]%Q - 1) (mkState (heap two_parents) (S (cursor two_parents)))
      = Ok (Z.of_nat p) (mkState (heap two_parents) (S (S (cursor two_parents)))) /\
    1 <= p <= length [1; 2; 3; 4]%Q - 1 /\
    crossover main_globals tape_recombine 0 1 two_parents = Ok (child_a, child_b) s' /\
    heap s' !! child_a = Some ca /\ heap s' !! child_b = Some cb /\
    length ca = length [1; 2; 3; 4]%Q /\ length cb = length [1; 2; 3; 4]%Q /\
    forall i x y, [1; 2; 3; 4]%Q !! i = Some x -> [5; 6; 7; 8]%Q !! i = Some y ->
      ca !! i = Some (if i <? p then x else y) /\
      cb !! i = Some (if i <? p then y else x).
Proof.
  apply (crossover_pivot_property main_globals tape_recombine 0 1 [1; 2; 3; 4]%Q [5; 6; 7; 8]%Q two_parents);
    [reflexivity | reflexivity | reflexivity | simpl; lia | reflexivity].
Defined.

Example crossover_pivot_run :
  crossover main_globals tape_recombine 0 1 two_parents =
    Ok (2, 3) (mkState [[1; 2; 3; 4]; [5; 6; 7; 8]; [1; 2; 7; 8]; [5; 6; 3; 4]]%Q 2).
Proof. reflexivity. Qed.

Lemma mutation_total G tape child (p : list Q) s_min s_max s :
  heap s !! child = Some p ->
  exists p' c', length p' = length p /\
    mutation G tape child s_min s_max s = Ok child (mkState (<[child := p']> (heap s)) c').
Proof.
  intros H. eexists _, _. split; [|apply (mutation_exact G tape child p); exact H].
  apply length_imap.
Qed.

(** C9, crossover gene conservation. When [crossover] recombines parents of
    equal length, either it returns two children of the parents' length in
    which, at every index, the two genes are the parents' two genes at that
    index in one order or the other, so that no child holds a gene that is
    not a parent's; or the parents have fewer than two genes and the pivot
    draw raises [ValueError]. *)
Theorem crossover_gene_conservation G tape a b (pa pb : list Q) s :
  heap s !! a = Some pa -> heap s !! b = Some pb ->
  length pa = length pb ->
  Qle_bool (CROSS_RATE G) (uniform_of 0 1 (tape (cursor s))) = false ->
  match crossover G tape a b s with
  | Ok children s' =>
      exists ca cb : list Q,
        heap s' !! fst children = Some ca /\ heap s' !! snd children = Some cb /\
        length ca = length pa /\ length cb = length pb /\
        (forall i x y, pa !! i = Some x -> pb !! i = Some y ->
           (ca !! i = Some x /\ cb !! i = Some y) \/
           (ca !! i = Some y /\ cb !! i = Some x)) /\
        (forall g, g ∈ ca \/ g ∈ cb -> g ∈ pa \/ g ∈ pb)
  | Raise e => e = ValueError /\ length pa < 2
  | Fault | Hang => False
  end.
Proof.
  intros Ha Hb Hl Hu.
  destruct (Nat.lt_ge_cases (length pa) 2) as [Hn|Hn].
  - rewrite (crossover_short G tape a b pa s Ha Hn Hu). auto.
  - rewrite (crossover_recombine G tape a b pa pb s Ha Hb Hl Hn Hu). cbv zeta.
    set (p := Z.to_nat _). cbn [fst snd heap].
    assert (Hpt : forall i x y, pa !! i = Some x -> pb !! i = Some y ->
              pivot_splice p pa pb !! i = Some (if i <? p then x else y) /\
              pivot_splice p pb pa !! i = Some (if i <? p then y else x)).
    { intros i x y Hx Hy. rewrite !pivot_splice_lookup by (exact Hl || now symmetry).
      destruct (i <? p); auto. }
    eexists _, _. split; [|split; [|split; [|split; [|split]]]].
    + rewrite lookup_app_r by lia. rewrite Nat.sub_diag. reflexivity.
    + rewrite lookup_app_r by lia.
      replace (S (length (heap s)) - length (heap s)) with 1 by lia. reflexivity.
    + now apply pivot_splice_length.
    + apply pivot_splice_length. now symmetry.
    + intros i x y Hx Hy. destruct (Hpt i x y Hx Hy) as [H1 H2].
      destruct (i <? p); auto.
    + intros g [Hg|Hg]; apply list_elem_of_lookup in Hg as [i Hi];
        rewrite pivot_splice_lookup in Hi by (exact Hl || now symmetry);
        destruct (i <? p); apply list_elem_of_lookup_2 in Hi; auto.
Qed.

Lemma crossover_gene_conservation_witness :
  match crossover main_globals tape_recombine 0 1 two_parents with
  | Ok children s' =>
      exists ca cb : list Q,
        heap s' !! fst children = Some ca /\ heap s' !! snd children = Some cb /\
        length ca = length [1; 2; 3; 4]%Q /\ length cb = length [5; 6; 7; 8]%Q /\
        (forall i x y, [1; 2; 3; 4]%Q !! i = Some x -> [5; 6; 7; 8]%Q !! i = Some y ->
           (ca !! i = Some x /\ cb !! i = Some y) \/
           (ca !! i = Some y /\ cb !! i = Some x)) /\
        (forall g, g ∈ ca \/ g ∈ cb -> g ∈ [1; 2; 3; 4]%Q \/ g ∈ [5; 6; 7; 8]%Q)
  | Raise e => e = ValueError /\ length [1; 2; 3; 4]%Q < 2
  | Fault | Hang => False
  end.
Proof.
  apply (crossover_gene_conservation main_globals tape_recombine 0 1
           [1; 2; 3; 4]%Q [5; 6; 7; 8]%Q two_parents);
    reflexivity.
Defined.

Lemma Qle_bool_zero_rate r u : (r == 0)%Q -> (0 <= u)%Q -> Qle_bool r u = true.
Proof. intros Hr Hu. apply Qle_bool_iff. rewrite Hr. exact Hu. Qed.

(** C7, crossover identity property. When the rate draw skips recombination,
    which it always does when the crossover rate is zero, [crossover] returns
    two chromosomes equal to the parents, stored at addresses the store did
    not hold before, and the parents are what they were: after the call,
    after mutating the second child, and after mutating the first child and
    then the second. *)
Theorem crossover_identity_property G tape a b (pa pb : list Q) s :
  heap s !! a = Some pa -> heap s !! b = Some pb ->
  Qle_bool (CROSS_RATE G) (uniform_of 0 1 (tape (cursor s))) = true
  \/ (CROSS_RATE G == 0)%Q ->
  exists child_a child_b s',
    crossover G tape a b s = Ok (child_a, child_b) s' /\
    heap s' !! child_a = Some pa /\ heap s' !! child_b = Some pb /\
    length (heap s) <= child_a /\ length (heap s) <= child_b /\
    heap s' !! a = Some pa /\ heap s' !! b = Some pb /\
    forall s_min s_max,
      (exists t, mutation G tape child_b s_min s_max s' = Ok child_b t /\
                 heap t !! a = Some pa /\ heap t !! b = Some pb) /\
      (exists t1 t2,
         mutation G tape child_a s_min s_max s' = Ok child_a t1 /\
         heap t1 !! a = Some pa /\ heap t1 !! b = Some pb /\
         mutation G tape child_b s_min s_max t1 = Ok child_b t2 /\
         heap t2 !! a = Some pa /\ heap t2 !! b = Some pb).
Proof.
  intros Ha Hb Hskip.
  assert (Hu : Qle_bool (CROSS_RATE G) (uniform_of 0 1 (tape (cursor s))) = true).
  { destruct Hskip as [H|H]; [exact H|]. apply Qle_bool_zero_rate; [exact H|].
    rewrite uniform_unit. apply unit_of_range. }
  pose proof (lookup_lt_Some _ _ _ Ha) as Hla.
  pose proof (lookup_lt_Some _ _ _ Hb) as Hlb.
  eexists _, _, _. split; [apply (crossover_skip G tape a b pa pb s Ha Hb Hu)|].
  cbn [heap cursor]. set (h := heap s) in *.
  set (h' := h ++ pa :: (if a =? b then [] else [pb])).
  set (cb := if a =? b then length h else S (length h)).
  assert (Ha' : h' !! a = Some pa) by (unfold h'; now rewrite lookup_app_l).
  assert (Hb' : h' !! b = Some pb) by (unfold h'; now rewrite lookup_app_l).
  assert (Hca : h' !! length h = Some pa).
  { unfold h'. rewrite lookup_app_r by lia. now rewrite Nat.sub_diag. }
  assert (Hcb : h' !! cb = Some pb).
  { unfold h', cb. destruct (Nat.eqb_spec a b) as [->|Hne].
    - rewrite lookup_app_r by lia. rewrite Nat.sub_diag. simpl. congruence.
    - rewrite lookup_app_r by lia.
      now replace (S (length h) - length h) with 1 by lia. }
  assert (Hge : length h <= cb) by (unfold cb; destruct (a =? b); lia).
  repeat split; try assumption; try lia.
  - destruct (mutation_total G tape cb pb s_min s_max (mkState h' (S (cursor s))) Hcb)
      as (q & c & _ & Hm).
    eexists. split; [exact Hm|]. cbn [heap].
    rewrite !list_lookup_insert_ne by lia. auto.
  - destruct (mutation_total G tape (length h) pa s_min s_max (mkState h' (S (cursor s))) Hca)
      as (q & c & Hq & Hm).
    assert (Hcb1 : is_Some (<[length h := q]> h' !! cb)).
    { apply lookup_lt_is_Some. rewrite length_insert. eapply lookup_lt_Some; eauto. }
    destruct Hcb1 as [pb1 Hcb1].
    destruct (mutation_total G tape cb pb1 s_min s_max (mkState (<[length h := q]> h') c) Hcb1)
      as (q2 & c2 & _ & Hm2).
    eexists _, _. split; [exact Hm|]. cbn [heap].
    split; [|split; [|split; [exact Hm2|]]]; cbn [heap];
      rewrite !list_lookup_insert_ne by lia; auto.
Qed.

Lemma crossover_identity_witness :
  exists child_a child_b s',
    crossover main_globals tape_skip 0 1 two_parents = Ok (child_a, child_b) s' /\
    heap s' !! child_a = Some [1; 2; 3; 4]%Q /\ heap s' !! child_b = Some [5; 6; 7; 8]%Q /\
    length (heap two_parents) <= child_a /\ length (heap two_parents) <= child_b /\
    heap s' !! 0 = Some [1; 2; 3; 4]%Q /\ heap s' !! 1 = Some [5; 6; 7; 8]%Q /\
    forall s_min s_max,
      (exists t, mutation main_globals tape_skip child_b s_min s_max s' = Ok child_b t /\
                 heap t !! 0 = Some [1; 2; 3; 4]%Q /\ heap t !! 1 = Some [5; 6; 7; 8]%Q) /\
      (exists t1 t2,
         mutation main_globals tape_skip child_a s_min s_max s' = Ok child_a t1 /\
         heap t1 !! 0 = Some [1; 2; 3; 4]%Q /\ heap t1 !! 1 = Some [5; 6; 7; 8]%Q /\
         mutation main_globals tape_skip child_b s_min s_max t1 = Ok child_b t2 /\
         heap t2 !! 0 = Some [1; 2; 3; 4]%Q /\ heap t2 !! 1 = Some [5; 6; 7; 8]%Q).
Proof.
  apply (crossover_identity_property main_globals tape_skip 0 1
           [1; 2; 3; 4]%Q [5; 6; 7; 8]%Q two_parents);
    [reflexivity | reflexivity | left; reflexivity].
Defined.

(** ** Mutation: frame *)

(** C10, mutation frame property. [mutation] returns the address it was
    given and writes its result there: no chromosome is created, no other
    chromosome changes, the length stays, a gene whose rate draw does not
    trigger keeps its value, and a gene whose draw triggers becomes the
    clamped sum of its value and the perturbation drawn next. *)
Theorem mutation_frame_property G tape child (p : list Q) s_min s_max s :
  heap s !! child = Some p ->
  exists s' (p' : list Q),
    mutation G tape child s_min s_max s = Ok child s' /\
    heap s' !! child = Some p' /\
    length p' = length p /\
    length (heap s') = length (heap s) /\
    (forall r, r <> child -> heap s' !! r = heap s !! r) /\
    forall i x, p !! i = Some x ->
      p' !! i = Some (if triggers G tape (trigger_cursor G tape (cursor s) i)
                      then perturbed tape s_min s_max (trigger_cursor G tape (cursor s) i) x
                      else x).
Proof.
  intros Hc. eexists _, _.
  split; [apply (mutation_exact G tape child p); exact Hc|]. cbn [heap].
  split; [apply list_lookup_insert_eq; eapply lookup_lt_Some; eauto|].
  split; [apply length_imap|].
  split; [apply length_insert|].
  split.
  - intros r Hr. apply list_lookup_insert_ne. congruence.
  - intros i x Hx. rewrite list_lookup_imap, Hx. reflexivity.
Qed.

Lemma mutation_frame_witness :
  exists s' (p' : list Q),
    mutation main_globals tape_skip 0 (-5) 5 two_parents = Ok 0 s' /\
    heap s' !! 0 = Some p' /\
    length p' = length [1; 2; 3; 4]%Q /\
    length (heap s') = length (heap two_parents) /\
    (forall r, r <> 0 -> heap s' !! r = heap two_parents !! r) /\
    forall i x, [1; 2; 3; 4]%Q !! i = Some x ->
      p' !! i = Some (if triggers main_globals tape_skip
                           (trigger_cursor main_globals tape_skip (cursor two_parents) i)
                      then perturbed tape_skip (-5) 5
                             (trigger_cursor main_globals tape_skip (cursor two_parents) i) x
                      else x).
Proof.
  apply (mutation_frame_property main_globals tape_skip 0 [1; 2; 3; 4]%Q (-5) 5 two_parents).
  reflexivity.
Defined.

Example mutation_run :
  mutation main_globals tape_skip 0 (-5) 5 two_parents =
    Ok 0 (mkState [[1; 2; 3; 5]; [5; 6; 7; 8]]%Q 5).
Proof. vm_compute. reflexivity. Qed.

(** ** Sorting *)

Lemma Qltb_true a b : Qltb a b = true <-> (a < b)%Q.
Proof.
  unfold Qltb. rewrite negb_true_iff. split.
  - intros H. apply Qnot_le_lt. intros Hle. apply Qle_bool_iff in Hle. congruence.
  - intros H. destruct (Qle_bool b a) eqn:E; [|reflexivity].
    apply Qle_bool_iff in E. exfalso. exact (Qlt_not_le _ _ H E).
Qed.

Lemma Qltb_false a b : Qltb a b = false <-> (b <= a)%Q.
Proof.
  unfold Qltb. rewrite negb_false_iff. apply Qle_bool_iff.
Qed.

Lemma insert_by_perm {A} (x : Q * A) l : insert_by x l ≡ₚ x :: l.
Proof.
  induction l as [|y l IH]; simpl; [reflexivity|].
  destruct (Qltb (fst y) (fst x)); [|reflexivity].
  rewrite IH. apply Permutation_swap.
Qed.

Lemma sort_by_perm {A} (l : list (Q * A)) : sort_by l ≡ₚ l.
Proof.
  induction l as [|x l IH]; simpl; [reflexivity|].
  rewrite insert_by_perm. now rewrite IH.
Qed.

Lemma insert_by_sorted {A} (x : Q * A) l :
  StronglySorted key_le l -> StronglySorted key_le (insert_by x l).
Proof.
  induction 1 as [|y l Hs IH Hy]; simpl.
  - repeat constructor.
  - destruct (Qltb (fst y) (fst x)) eqn:E.
    + constructor; [exact IH|].
      rewrite insert_by_perm. constructor; [|exact Hy].
      apply Qltb_true in E. now apply Qlt_le_weak.
    + apply Qltb_false in E. constructor; [now constructor|].
      constructor; [exact E|].
      eapply Forall_impl; [exact Hy|]. intros z Hz. unfold key_le in *.
      eapply Qle_trans; eauto.
Qed.

Lemma sort_by_sorted {A} (l : list (Q * A)) : StronglySorted key_le (sort_by l).
Proof.
  induction l as [|x l IH]; simpl; [constructor | now apply insert_by_sorted].
Qed.

Lemma keyed_Ok key l s ks s' :
  keyed key l s = Ok ks s' ->
  s' = s /\ ks = map (fun r => (key_at key (heap s) r, r)) l /\ allocated (heap s) l.
Proof.
  revert ks s'. induction l as [|r l IH]; simpl; intros ks s'.
  - intros [= <- <-]. repeat split. constructor.
  - intros H. apply bind_Ok in H as (p & t & Hp & H).
    unfold deref in Hp. destruct (heap s !! r) as [q|] eqn:E; [|discriminate].
    injection Hp as <- <-.
    apply bind_Ok in H as (ks' & t & Hk & H). injection H as <- <-.
    destruct (IH _ _ Hk) as (-> & -> & Hall).
    repeat split.
    + unfold key_at. now rewrite E.
    + constructor; [eapply lookup_lt_Some; eauto | exact Hall].
Qed.

Lemma keyed_eq key l s :
  allocated (heap s) l ->
  keyed key l s = Ok (map (fun r => (key_at key (heap s) r, r)) l) s.
Proof.
  induction 1 as [|r l Hr Hl IH]; simpl; [reflexivity|].
  destruct (lookup_lt_is_Some_2 _ _ Hr) as [p Hp].
  rewrite (bind_eq _ _ _ _ _ (deref_eq _ _ _ Hp)).
  rewrite (bind_eq _ _ _ _ _ IH). unfold ret, key_at. now rewrite Hp.
Qed.

Lemma sorted_keys_ascending key h (l : list loc) :
  ascending key h (map snd (sort_by (map (fun r => (key_at key h r, r)) l))).
Proof.
  set (ks := map _ l).
  assert (Hk : Forall (fun kr => fst kr = key_at key h (snd kr)) (sort_by ks)).
  { rewrite sort_by_perm. unfold ks. apply Forall_map. now apply Forall_true. }
  pose proof (sort_by_sorted ks) as Hs. unfold ascending.
  induction Hs as [|x l' Hs IH Hx]; simpl; [constructor|].
  apply Forall_cons in Hk as [Hx0 Hk].
  constructor; [now apply IH|].
  apply Forall_map. rewrite Forall_forall in Hx, Hk |- *.
  intros y Hy. cbn. unfold key_le in Hx.
  rewrite <- Hx0, <- (Hk y Hy). now apply Hx.
Qed.

Lemma sorted_keys_perm key h (l : list loc) :
  map snd (sort_by (map (fun r => (key_at key h r, r)) l)) ≡ₚ l.
Proof.
  rewrite sort_by_perm, map_map. simpl. now rewrite map_id.
Qed.

Lemma sorted_Ok key l s l' s' :
  sorted key l s = Ok l' s' ->
  s' = s /\ l' ≡ₚ l /\ ascending key (heap s) l' /\ allocated (heap s) l.
Proof.
  unfold sorted. intros H. apply bind_Ok in H as (ks & t & Hk & H).
  injection H as <- <-. apply keyed_Ok in Hk as (-> & -> & Hall).
  split; [reflexivity|]. split; [apply sorted_keys_perm|].
  split; [apply sorted_keys_ascending | exact Hall].
Qed.

Lemma sorted_eq key l s :
  allocated (heap s) l ->
  sorted key l s = Ok (map snd (sort_by (map (fun r => (key_at key (heap s) r, r)) l))) s.
Proof.
  intros H. unfold sorted. now rewrite (bind_eq _ _ _ _ _ (keyed_eq key l s H)).
Qed.

Lemma ascending_head key h x l y :
  ascending key h (x :: l) -> y ∈ x :: l -> (key_at key h x <= key_at key h y)%Q.
Proof.
  intros Hs Hy. apply StronglySorted_inv in Hs as [_ Hx].
  apply elem_of_cons in Hy as [->|Hy]; [apply Qle_refl|].
  rewrite Forall_forall in Hx. now apply Hx.
Qed.

(** ** Selection *)


Lemma ceil_mul_pos n percent : (0 < n)%Z -> (0 < percent)%Q -> (0 < ceil_mul n percent)%Z.
Proof.
  intros Hn Hp. unfold ceil_mul.
  rewrite Zlt_Qlt. eapply Qlt_le_trans; [|apply Qle_ceiling].
  change (inject_Z 0) with 0%Q.
  apply Qmult_lt_0_compat; [|exact Hp].
  replace 0%Q with (inject_Z 0) by reflexivity. now rewrite <- Zlt_Qlt.
Qed.


Lemma key_at_eq key (h : list (list Q)) r p : h !! r = Some p -> key_at key h r = key p.
Proof. unfold key_at. now intros ->. Qed.

Lemma allocated_perm h l l' : l ≡ₚ l' -> allocated h l -> allocated h l'.
Proof. unfold allocated. now intros ->. Qed.

Section Tournament.
Variable tape : nat -> N.


End Tournament.


Example tournament_selection_run :
  tournament_selection tape_tournament [0; 1; 2] (1 # 2) three_points =
    Ok (1, [2]) (mkState (heap three_points) 2).
Proof. vm_compute. reflexivity. Qed.

(** ** The loop of [evolve] *)

Lemma bind_Hang {A B} (m : M A) (k : A -> M B) s : m s = Hang -> bind m k s = Hang.
Proof. unfold bind. now intros ->. Qed.

Section Evolve.
Variable G : globals.
Variable tape : nat -> N.

(** The loop of [evolve] adds two children per round: it stops at
    [POP_SIZE] from a start of the same parity and one above it otherwise. *)
Lemma evolve_loop_length fuel mating_pool :
  forall new_population s P s',
    evolve_loop G tape fuel mating_pool new_population s = Ok P s' ->
    len P = (if (len new_population <? POP_SIZE G)%Z
             then POP_SIZE G + (POP_SIZE G - len new_population) mod 2
             else len new_population)%Z.
Proof.
  induction fuel as [|fuel IH]; intros pop s P s'; simpl;
    destruct (Z.ltb_spec (len pop) (POP_SIZE G)) as [Hlt|Hge].
  - discriminate.
  - now intros [= <- <-].
  - intros H.
    apply bind_Ok in H as (ia & s1 & _ & H).
    apply bind_Ok in H as (ib & s2 & _ & H).
    destruct (ia =? ib)%Z.
    + rewrite (IH _ _ _ _ H). destruct (Z.ltb_spec (len pop) (POP_SIZE G)); [reflexivity | lia].
    + apply bind_Ok in H as (pa & s3 & _ & H).
      apply bind_Ok in H as (pb & s4 & _ & H).
      apply bind_Ok in H as (ch & s5 & _ & H).
      apply bind_Ok in H as (ca & s6 & _ & H).
      apply bind_Ok in H as (cb & s7 & _ & H).
      rewrite (IH _ _ _ _ H). unfold len in *. rewrite !length_app. simpl length.
      match goal with |- context [Z.ltb ?x ?y] => destruct (Z.ltb_spec x y) end.
      all: Z.div_mod_to_equations; lia.
  - now intros [= <- <-].
Qed.

Lemma randrange_one s : randrange tape 1 s = Ok 0%Z (mkState (heap s) (S (cursor s))).
Proof. unfold randrange, below. simpl. unfold bind, next_raw, ret. now rewrite Z.mod_1_r. Qed.

Lemma degenerate_pool_loops fuel (mating_pool elites : list loc) s :
  length mating_pool = 1 ->
  (len elites < POP_SIZE G)%Z ->
  evolve G tape fuel mating_pool elites s = Hang.
Proof.
  intros Hpool Hlt. unfold evolve. simpl app. revert s.
  induction fuel as [|fuel IH]; intros s; simpl;
    destruct (Z.ltb_spec (len elites) (POP_SIZE G)); try lia; [reflexivity|].
  unfold len at 1 2. rewrite Hpool. simpl Z.of_nat.
  rewrite (bind_eq _ _ _ _ _ (randrange_one _)).
  rewrite (bind_eq _ _ _ _ _ (randrange_one _)).
  simpl. apply IH.
Qed.

(** C4, degenerate mating pool, as the program behaves. With a mating pool
    of exactly one entry and fewer than [POP_SIZE] elites, [evolve] raises
    nothing and returns nothing: both parent indices are drawn as 0 in
    every round, so the loop is still running after any number of rounds. *)
Theorem evolve_degenerate_pool_hangs fuel (mating_pool elites : list loc) s :
  length mating_pool = 1 ->
  (len elites < POP_SIZE G)%Z ->
  evolve G tape fuel mating_pool elites s = Hang.
Proof. apply degenerate_pool_loops. Qed.
End Evolve.

Lemma evolve_degenerate_pool_witness :
  evolve small_globals tape_generation 1000 [0] [] three_points = Hang.
Proof.
  apply (evolve_degenerate_pool_hangs small_globals tape_generation 1000 [0] [] three_points).
  - reflexivity.
  - reflexivity.
Defined.

(** With no elites ([el_p = 0]) the mating pool is the tournament winner
    alone; the run of [genetic_algorithm] then ends in no exception, whatever
    the number of rounds granted to the loop of [evolve]. *)
Lemma no_degenerate_pool_error :
  ~ exists fuel,
      genetic_algorithm small_globals tape_generation fuel 0 (1 # 2) 2 1 styb_tang start
      <> Hang.
Proof.
  intros [fuel H]. apply H. clear H.
  unfold genetic_algorithm, evolved_population.
  assert (Hinit : exists P s,
            initialize_population tape_generation (POP_SIZE small_globals) 2
              (SEARCH_MIN small_globals) (SEARCH_MAX small_globals) start = Ok P s /\
            exists P', sorted styb_tang P s = Ok P' s /\
            elite_selection P' 0 s = Ok [] s /\
            exists w rest s',
              tournament_selection tape_generation (drop 0 P') (1 # 2) s
                = Ok (w, rest) s').
  { eexists _, _. split; [vm_compute; reflexivity|].
    eexists. split; [vm_compute; reflexivity|]. split; [vm_compute; reflexivity|].
    eexists _, _, _. vm_compute. reflexivity. }
  destruct Hinit as (P & s & Hi & P' & Hs & He & w & rest & s' & Ht).
  apply bind_Hang. rewrite (bind_eq _ _ _ _ _ Hi).
  change (Z.to_nat 1) with 1. cbn [generations]. apply bind_Hang.
  unfold generation.
  rewrite (bind_eq _ _ _ _ _ Hs), (bind_eq _ _ _ _ _ He). cbn [length].
  rewrite (bind_eq _ _ _ _ _ Ht).
  apply degenerate_pool_loops; reflexivity.
Qed.

(** When the elites and [POP_SIZE] differ by an odd number, every run of
    [evolve] that returns, returns one chromosome too many. *)
Lemma evolve_odd_remainder G tape fuel (mating_pool elites P : list loc) s s' :
  (len elites < POP_SIZE G)%Z ->
  ((POP_SIZE G - len elites) mod 2 = 1)%Z ->
  evolve G tape fuel mating_pool elites s = Ok P s' ->
  len P = (POP_SIZE G + 1)%Z.
Proof.
  intros Hlt Hodd H. unfold evolve in H. simpl app in H.
  rewrite (evolve_loop_length G tape fuel mating_pool elites s P s' H).
  destruct (Z.ltb_spec (len elites) (POP_SIZE G)); lia.
Qed.

(** C1, population size. With [POP_SIZE = 4] and one elite, the population
    that the first generation hands to the next sort has five chromosomes,
    one more than [POP_SIZE]. *)
Theorem population_size_overshoot :
  exists s',
    evolved_population small_globals tape_generation 2 (1 # 4) (1 # 2) 2 1 styb_tang start
      = Ok [1; 4; 5; 6; 7] s' /\
    len [1; 4; 5; 6; 7] = (POP_SIZE small_globals + 1)%Z.
Proof. eexists. split; [vm_compute; reflexivity | reflexivity]. Qed.

(** C5, the fitness function of the tournament. [tournament_selection] ranks
    its entrants by [styb_tang], whatever function the caller of
    [genetic_algorithm] passed: of [-3, -3] and [-4, -4] it returns the
    first, which [styb_tang] ranks lower, although the second has the lower
    [coordinate_sum]. *)
Theorem tournament_ranks_by_styb_tang :
  tournament_selection tape_tournament [0; 1] 1 rival_points
    = Ok (0, []) (mkState (heap rival_points) 2) /\
  heap rival_points !! 0 = Some [-3; -3]%Q /\
  heap rival_points !! 1 = Some [-4; -4]%Q /\
  (coordinate_sum [-4; -4] < coordinate_sum [-3; -3])%Q /\
  (styb_tang [-3; -3] < styb_tang [-4; -4])%Q.
Proof. repeat split; vm_compute; reflexivity. Qed.

(** ** Invariants of the store *)

Lemma frame_refl h : frame h h.
Proof. split; auto. Qed.

Lemma frame_trans h1 h2 h3 : frame h1 h2 -> frame h2 h3 -> frame h1 h3.
Proof.
  intros [L1 F1] [L2 F2]. split; [lia|].
  intros r Hr. rewrite F2 by lia. now apply F1.
Qed.

Lemma frame_app h l : frame h (h ++ l).
Proof.
  split; [rewrite length_app; lia|]. intros r Hr. now apply lookup_app_l.
Qed.

Lemma frame_insert h0 h r (p : list Q) :
  frame h0 h -> length h0 <= r -> frame h0 (<[r := p]> h).
Proof.
  intros [L F] Hr. split; [now rewrite length_insert|].
  intros r' Hr'. rewrite list_lookup_insert_ne by lia. now apply F.
Qed.

Lemma allocated_frame h h' l : frame h h' -> allocated h l -> allocated h' l.
Proof.
  intros [L _] H. unfold allocated in *. eapply Forall_impl; [exact H|].
  intros r Hr. simpl in Hr. lia.
Qed.

Lemma allocated_elem h l r : allocated h l -> r ∈ l -> r < length h.
Proof. unfold allocated. rewrite Forall_forall. auto. Qed.

Lemma heap_all_app P h (p : list Q) : heap_all P h -> Forall P p -> heap_all P (h ++ [p]).
Proof. intros H Hp. apply Forall_app. split; [exact H | now constructor]. Qed.

Lemma heap_all_insert P h r (p : list Q) :
  heap_all P h -> Forall P p -> heap_all P (<[r := p]> h).
Proof. intros H Hp. now apply Forall_insert. Qed.

Lemma heap_all_lookup P h r (p : list Q) : heap_all P h -> h !! r = Some p -> Forall P p.
Proof. intros H Hr. exact (Forall_lookup_1 _ _ _ _ H Hr). Qed.

Lemma uniform_Ok tape a b s x s' :
  uniform tape a b s = Ok x s' ->
  heap s' = heap s /\ x = uniform_of a b (tape (cursor s)).
Proof. now intros [= <- <-]. Qed.

Lemma randrange_Ok tape n s i s' :
  randrange tape n s = Ok i s' -> heap s' = heap s /\ (0 <= i < n)%Z.
Proof.
  unfold randrange. destruct (Z.ltb_spec 0 n); [|discriminate].
  intros [= <- <-]. split; [reflexivity | now apply below_range].
Qed.

Lemma randint_Ok tape a b s i s' :
  randint tape a b s = Ok i s' -> heap s' = heap s /\ (a <= i <= b)%Z.
Proof.
  unfold randint. destruct (Z.ltb_spec 0 (b + 1 - a)); [|discriminate].
  intros [= <- <-]. split; [reflexivity|].
  pose proof (below_range (b + 1 - a) (tape (cursor s)) ltac:(lia)). lia.
Qed.

Lemma deref_Ok r s p s' : deref r s = Ok p s' -> s' = s /\ heap s !! r = Some p.
Proof. unfold deref. destruct (heap s !! r); [|discriminate]. now intros [= <- <-]. Qed.

Lemma len_at_Ok r s n s' : len_at r s = Ok n s' -> s' = s.
Proof.
  unfold len_at. intros H. apply bind_Ok in H as (p & t & Hp & [= <- <-]).
  now apply deref_Ok in Hp as [-> _].
Qed.

Lemma load_Ok r i s x s' :
  load r i s = Ok x s' -> s' = s /\ exists p : list Q, heap s !! r = Some p /\ x ∈ p.
Proof.
  unfold load. intros H. apply bind_Ok in H as (p & t & Hp & H).
  apply deref_Ok in Hp as [-> Hp]. apply getitem_Ok in H as [-> Hx]. eauto.
Qed.

Lemma append_Ok r v s u s' :
  append r v s = Ok u s' ->
  exists p : list Q, heap s !! r = Some p /\ heap s' = <[r := p ++ [v]]> (heap s).
Proof.
  unfold append. intros H. apply bind_Ok in H as (p & t & Hp & H).
  apply deref_Ok in Hp as [-> Hp]. unfold assign in H. rewrite Hp in H.
  injection H as _ <-. eauto.
Qed.

(** A gene read from the store satisfies what the store satisfies; a gene
    appended to a chromosome keeps it. *)
Lemma load_heap_all P r i s x s' :
  heap_all P (heap s) -> load r i s = Ok x s' -> s' = s /\ P x.
Proof.
  intros Hh H. apply load_Ok in H as (-> & p & Hp & Hx). split; [reflexivity|].
  pose proof (heap_all_lookup _ _ _ _ Hh Hp) as Hall.
  rewrite Forall_forall in Hall. now apply Hall.
Qed.

Lemma append_heap_all P r v s u s' :
  heap_all P (heap s) -> P v -> append r v s = Ok u s' ->
  heap_all P (heap s') /\ length (heap s') = length (heap s) /\
  forall r', r' <> r -> heap s' !! r' = heap s !! r'.
Proof.
  intros Hh Hv H. apply append_Ok in H as (p & Hp & ->).
  split; [|split].
  - apply heap_all_insert; [exact Hh|]. apply Forall_app. split; [|now repeat constructor].
    eapply heap_all_lookup; eauto.
  - apply length_insert.
  - intros r' Hr'. apply list_lookup_insert_ne. congruence.
Qed.

(** Copying a gene into a chromosome that is not among the first ones leaves
    the first ones as they are. *)
Lemma copy_gene_invariant P (h0 : list (list Q)) src dst j s x s1 u s2 :
  heap_all P (heap s) -> length h0 <= dst ->
  (forall r, r < length h0 -> heap s !! r = h0 !! r) ->
  load src j s = Ok x s1 -> append dst x s1 = Ok u s2 ->
  heap_all P (heap s2) /\ length (heap s2) = length (heap s) /\
  forall r, r < length h0 -> heap s2 !! r = h0 !! r.
Proof.
  intros Hh Hdst Hf Hl Ha.
  apply (load_heap_all P) in Hl as [-> Hx]; [|exact Hh].
  apply (append_heap_all P) in Ha as (K1 & K2 & K3); [|exact Hh|exact Hx].
  split; [exact K1|]. split; [exact K2|].
  intros r Hr. rewrite K3 by lia. now apply Hf.
Qed.

Section CrossoverInvariant.
Variable G : globals.
Variable tape : nat -> N.
Variable P : Q -> Prop.

(** Whatever [crossover] returns, it leaves the chromosomes it found as they
    were, its two children are new, and their genes are genes it read. *)
Lemma crossover_invariant a b s ch s' :
  heap_all P (heap s) ->
  crossover G tape a b s = Ok ch s' ->
  heap_all P (heap s') /\ frame (heap s) (heap s') /\
  length (heap s) <= fst ch < length (heap s') /\
  length (heap s) <= snd ch < length (heap s').
Proof.
  intros Hh H. unfold crossover in H.
  apply bind_Ok in H as (u & s1 & Hu & H). apply uniform_Ok in Hu as [Hu _].
  destruct (Qle_bool (CROSS_RATE G) u).
  - unfold deepcopy_pair in H.
    apply bind_Ok in H as (pa & t & Hpa & H). apply deref_Ok in Hpa as [-> Hpa].
    apply bind_Ok in H as (a' & s2 & Ha' & H). injection Ha' as <- <-.
    rewrite Hu in *.
    assert (Hpa' : Forall P pa) by (eapply heap_all_lookup; eauto).
    destruct (a =? b).
    + injection H as <- <-. cbn [heap fst snd]. rewrite length_app. simpl.
      repeat split; try lia; [now apply heap_all_app | apply frame_app | apply frame_app].
    + apply bind_Ok in H as (pb & t & Hpb & H). apply deref_Ok in Hpb as [-> Hpb].
      apply bind_Ok in H as (b' & s3 & Hb' & H). injection Hb' as <- <-.
      injection H as <- <-. cbn [heap fst snd] in *. rewrite !length_app. simpl.
      assert (Hpb' : Forall P pb) by (eapply heap_all_lookup; [apply heap_all_app|]; eauto).
      repeat split; try lia.
      * apply heap_all_app; [now apply heap_all_app | exact Hpb'].
      * rewrite !length_app. simpl. lia.
      * intros r Hr. rewrite <- app_assoc. now apply lookup_app_l.
  - apply bind_Ok in H as (ca & s2 & Hca & H). injection Hca as <- <-.
    apply bind_Ok in H as (cb & s3 & Hcb & H). injection Hcb as <- <-.
    cbn [heap cursor] in H. rewrite Hu in *. set (h := heap s) in *.
    apply bind_Ok in H as (n & t & Hn & H). apply len_at_Ok in Hn as ->.
    apply bind_Ok in H as (pivot & s4 & Hpv & H). apply randint_Ok in Hpv as [Hpv _].
    cbn [heap] in Hpv.
    apply bind_Ok in H as (n' & t & Hn & H). apply len_at_Ok in Hn as ->.
    apply bind_Ok in H as ([] & s5 & Hloop & H). injection H as <- <-.
    cbn [fst snd]. rewrite length_app in *. simpl length in *.
    pose (I := fun (_ : Z) (_ : unit) (t : state) =>
                 heap_all P (heap t) /\ length (heap t) = length h + 1 + 1 /\
                 forall r, r < length h -> heap t !! r = h !! r).
    unfold range_loop in Hloop.
    assert (HI : I (0 + Z.of_nat (Z.to_nat n'))%Z tt s5).
    { refine (ensures_for_range I _ _ _ _ s4 _ _ _ _ Hloop).
      - unfold I. rewrite Hpv, !length_app. simpl. split; [|split; [lia|]].
        + apply heap_all_app; [apply heap_all_app|]; auto.
        + intros r Hr. rewrite <- app_assoc. now apply lookup_app_l.
      - intros j [] t Hj (I1 & I2 & I3) [] t' Hbody.
      destruct (j <? pivot)%Z;
        apply bind_Ok in Hbody as (x & t1 & Hx & Hbody);
        apply bind_Ok in Hbody as (u1 & t2 & A1 & Hbody);
        apply bind_Ok in Hbody as (y & t3 & Hy & A2);
        destruct (copy_gene_invariant P h _ (length h) _ _ _ _ _ _
                    I1 (Nat.le_refl _) I3 Hx A1) as (K1 & K2 & K3);
        destruct (copy_gene_invariant P h _ (length h + 1) _ _ _ _ _ _
                    K1 ltac:(lia) K3 Hy A2) as (M1 & M2 & M3);
        (split; [exact M1 | split; [lia | exact M3]]). }
  destruct HI as (I1 & I2 & I3).
    split; [exact I1|]. split; [split; [lia | exact I3]|]. lia.
Qed.
End CrossoverInvariant.

(** ** Invariants of a run *)

Lemma list_pop_Ok {A} (l : list A) i s x l' s' :
  list_pop l i s = Ok (x, l') s' -> s' = s /\ x ∈ l /\ forall y, y ∈ l' -> y ∈ l.
Proof.
  unfold list_pop. destruct (norm_index i (len l)) as [j|]; [|discriminate].
  destruct (l !! j) as [z|] eqn:E; [|discriminate].
  intros [= <- <- <-]. split; [reflexivity|]. split.
  - eapply list_elem_of_lookup_2; eauto.
  - intros y Hy. eapply list_elem_of_delete_inv; exact Hy.
Qed.

Lemma elite_selection_Ok population percent s elites s' :
  elite_selection population percent s = Ok elites s' ->
  s' = s /\
  elites = take (Z.to_nat (ceil_mul (len population) percent)) population /\
  Z.to_nat (ceil_mul (len population) percent) <= length population.
Proof.
  unfold elite_selection, range_loop. intros H.
  pose (I := fun (j : Z) (e : list loc) (t : state) =>
               t = s /\ e = take (Z.to_nat j) population /\
               Z.to_nat j <= length population).
  assert (HI : I (0 + Z.of_nat (Z.to_nat (ceil_mul (len population) percent)))%Z elites s').
  { refine (ensures_for_range I _ _ _ _ s _ _ _ _ H).
    - unfold I. simpl. repeat split; lia.
    - intros j e t Hj (-> & -> & Hle) e' t' Hb.
      apply bind_Ok in Hb as (x & t & Hx & [= <- <-]).
      apply getitem_nonneg_Ok in Hx as [-> Hx]; [|lia].
      unfold I. replace (Z.to_nat (j + 1)) with (S (Z.to_nat j)) by lia.
      split; [reflexivity|]. split; [now rewrite (take_S_r _ _ _ Hx)|].
      apply lookup_lt_Some in Hx. lia. }
  destruct HI as (-> & -> & Hle).
  replace (Z.to_nat (0 + Z.of_nat (Z.to_nat (ceil_mul (len population) percent))))
    with (Z.to_nat (ceil_mul (len population) percent)) in * by lia.
  auto.
Qed.

Lemma tournament_selection_Ok tape population percent s w rest s' :
  tournament_selection tape population percent s = Ok (w, rest) s' ->
  heap s' = heap s /\ w ∈ population.
Proof.
  unfold tournament_selection, range_loop. intros H.
  apply bind_Ok in H as ([tour pop] & s1 & Hloop & H). cbn [fst snd] in H.
  pose (I := fun (_ : Z) (tp : list loc * list loc) (t : state) =>
               heap t = heap s /\
               forall x, x ∈ fst tp \/ x ∈ snd tp -> x ∈ population).
  assert (HI : I (0 + Z.of_nat (Z.to_nat (ceil_mul (len population) percent)))%Z (tour, pop) s1).
  { refine (ensures_for_range I _ _ _ _ s _ _ _ _ Hloop).
    - unfold I. simpl. split; [reflexivity|]. intros x [Hx|Hx]; [|exact Hx].
      now apply elem_of_nil in Hx.
    - intros j [tr pp] t Hj [Hh Hsub] [tr' pp'] t' Hb. cbn [fst snd] in *.
      apply bind_Ok in Hb as (idx & t1 & Hidx & Hb). apply randint_Ok in Hidx as [Hidx _].
      apply bind_Ok in Hb as ([x rest'] & t2 & Hpop & [= <- <- <-]).
      apply list_pop_Ok in Hpop as (-> & Hx & Hrest). cbn [fst snd].
      split; [congruence|]. intros y [Hy|Hy].
      + apply elem_of_app in Hy as [Hy|Hy]; [now apply Hsub; left|].
        apply list_elem_of_singleton in Hy as ->. apply Hsub. now right.
      + apply Hsub. right. now apply Hrest. }
  destruct HI as [Hh Hsub]. cbn [fst snd] in Hsub.
  apply bind_Ok in H as (L & s2 & Hs & H). apply sorted_Ok in Hs as (-> & Hperm & _ & _).
  apply bind_Ok in H as (w' & s3 & Hw & [= <- <- <-]).
  apply getitem_Ok in Hw as [-> Hw]. split; [exact Hh|].
  apply Hsub. left. now rewrite <- Hperm.
Qed.

Section RunInvariant.
Variable G : globals.
Variable tape : nat -> N.
Variable P : Q -> Prop.
Hypothesis perturbed_P :
  forall c x, P x -> P (perturbed tape (SEARCH_MIN G) (SEARCH_MAX G) c x).
Hypothesis uniform_P : forall w, P (uniform_of (SEARCH_MIN G) (SEARCH_MAX G) w).

Lemma mutation_invariant child s c' s' :
  heap_all P (heap s) ->
  mutation G tape child (SEARCH_MIN G) (SEARCH_MAX G) s = Ok c' s' ->
  c' = child /\ heap_all P (heap s') /\ length (heap s') = length (heap s) /\
  forall r, r <> child -> heap s' !! r = heap s !! r.
Proof.
  intros Hh H.
  assert (exists p, heap s !! child = Some p) as [p Hp].
  { unfold mutation in H. apply bind_Ok in H as (n & t & Hn & _).
    unfold len_at in Hn. apply bind_Ok in Hn as (p & t' & Hp & _).
    apply deref_Ok in Hp as [_ Hp]. eauto. }
  rewrite (mutation_exact G tape child p _ _ s Hp) in H. injection H as <- <-.
  cbn [heap]. split; [reflexivity|]. split; [|split].
  - apply heap_all_insert; [exact Hh|].
    pose proof (heap_all_lookup _ _ _ _ Hh Hp) as Hall. rewrite Forall_forall in Hall.
    apply Forall_lookup_2. intros i y Hy. rewrite list_lookup_imap in Hy.
    destruct (p !! i) as [x|] eqn:E; [|discriminate]. injection Hy as <-.
    assert (P x) by (apply Hall; eapply list_elem_of_lookup_2; eauto).
    unfold mutated_gene. destruct (triggers _ _ _); auto.
  - apply length_insert.
  - intros r Hr. apply list_lookup_insert_ne. congruence.
Qed.

Lemma evolve_loop_invariant fuel mating_pool :
  forall new_population s R s',
    heap_all P (heap s) ->
    allocated (heap s) mating_pool ->
    allocated (heap s) new_population ->
    evolve_loop G tape fuel mating_pool new_population s = Ok R s' ->
    heap_all P (heap s') /\ frame (heap s) (heap s') /\ allocated (heap s') R /\
    exists children, R = new_population ++ children.
Proof.
  induction fuel as [|fuel IH]; intros pop s R s' Hh Hpool Hpop; simpl;
    destruct (len pop <? POP_SIZE G)%Z.
  - discriminate.
  - intros [= <- <-]. split; [exact Hh|]. split; [apply frame_refl|].
    split; [exact Hpop|]. exists []. now rewrite app_nil_r.
  - intros H.
    apply bind_Ok in H as (ia & s1 & Hia & H). apply randrange_Ok in Hia as [H1 _].
    apply bind_Ok in H as (ib & s2 & Hib & H). apply randrange_Ok in Hib as [H2 _].
    rewrite H1 in H2. clear H1 s1.
    destruct (ia =? ib)%Z.
    + rewrite <- H2. apply IH; rewrite ?H2; assumption.
    + apply bind_Ok in H as (pa & t & Hpa & H). apply getitem_Ok in Hpa as [-> Hpa].
      apply bind_Ok in H as (pb & t & Hpb & H). apply getitem_Ok in Hpb as [-> Hpb].
      apply bind_Ok in H as (ch & s3 & Hc & H).
      apply (crossover_invariant G tape P) in Hc as (C1 & C2 & C3 & C4); [|now rewrite H2].
      apply bind_Ok in H as (ca & s4 & Hma & H).
      apply mutation_invariant in Hma as (-> & M1 & M2 & M3); [|exact C1].
      apply bind_Ok in H as (cb & s5 & Hmb & H).
      apply mutation_invariant in Hmb as (-> & N1 & N2 & N3); [|exact M1].
      rewrite H2 in *.
      assert (F : frame (heap s) (heap s5)).
      { destruct C2 as [L F]. split; [lia|]. intros r Hr.
        rewrite N3 by lia. rewrite M3 by lia. now apply F. }
      apply IH in H as (I1 & I2 & I3 & children & ->); [|exact N1| |].
      * split; [exact I1|]. split; [eapply frame_trans; eauto|]. split; [exact I3|].
        exists ([fst ch] ++ [snd ch] ++ children). now rewrite <- !app_assoc.
      * eapply allocated_frame; eauto.
      * apply Forall_app. split; [eapply allocated_frame; eauto|].
        repeat constructor; lia.
  - intros [= <- <-]. split; [exact Hh|]. split; [apply frame_refl|].
    split; [exact Hpop|]. exists []. now rewrite app_nil_r.
Qed.

Lemma initialize_population_invariant size dim s population s' :
  heap_all P (heap s) ->
  initialize_population tape size dim (SEARCH_MIN G) (SEARCH_MAX G) s = Ok population s' ->
  heap_all P (heap s') /\ allocated (heap s') population.
Proof.
  intros Hh H. unfold initialize_population, range_loop in H.
  pose (I := fun (_ : Z) (pop : list loc) (t : state) =>
               heap_all P (heap t) /\ allocated (heap t) pop).
  refine (ensures_for_range I _ _ _ _ s _ _ _ _ H).
  - split; [exact Hh | constructor].
  - intros j pop t _ [I1 I2] pop' t' Hb.
    apply bind_Ok in Hb as (point & t1 & Ha & Hb). injection Ha as <- <-.
    apply bind_Ok in Hb as ([] & t2 & Hin & [= <- <-]).
    pose (J := fun (_ : Z) (_ : unit) (u : state) =>
                 heap_all P (heap u) /\ length (heap u) = S (length (heap t))).
    assert (HJ : J (0 + Z.of_nat (Z.to_nat dim))%Z tt t2).
    { refine (ensures_for_range J _ _ _ _ _ _ _ _ _ Hin).
      - split; cbn [heap].
        + apply heap_all_app; [exact I1 | constructor].
        + rewrite length_app. simpl. lia.
      - intros k [] u _ [J1 J2] [] u' Hk.
        apply bind_Ok in Hk as (x & u1 & Hx & Hk). apply uniform_Ok in Hx as [Hx ->].
        apply (append_heap_all P) in Hk as (K1 & K2 & _);
          [| now rewrite Hx | apply uniform_P].
        split; [exact K1 | congruence]. }
    destruct HJ as [J1 J2]. split; [exact J1|].
    apply Forall_app. split.
    + unfold allocated in *. eapply Forall_impl; [exact I2|].
      intros r Hr. simpl in Hr. lia.
    + repeat constructor. lia.
Qed.

(** One generation keeps the invariants, and with a positive proportion of
    elites a best chromosome of the old population is in the new one. *)
Lemma generation_invariant fuel el_p to_p function population s R s' :
  heap_all P (heap s) ->
  allocated (heap s) population ->
  generation G tape fuel el_p to_p function population s = Ok R s' ->
  heap_all P (heap s') /\ frame (heap s) (heap s') /\ allocated (heap s') R /\
  ((0 < el_p)%Q ->
   exists b, b ∈ R /\ b ∈ population /\
     forall y, y ∈ population ->
       (key_at function (heap s) b <= key_at function (heap s) y)%Q).
Proof.
  intros Hh Hpop H. unfold generation in H.
  apply bind_Ok in H as (S0 & t & Hs & H).
  apply sorted_Ok in Hs as (-> & Hperm & Hasc & _).
  apply bind_Ok in H as (E & t & He & H).
  apply elite_selection_Ok in He as (-> & HE & Hk).
  apply bind_Ok in H as ([w rest] & s1 & Ht & H).
  apply tournament_selection_Ok in Ht as [Hh1 Hw]. cbn [fst] in H.
  assert (HS0 : allocated (heap s) S0) by (eapply allocated_perm; [symmetry|]; eauto).
  assert (Hw' : w ∈ S0) by (eapply elem_of_sublist; [exact Hw | apply sublist_drop]).
  assert (HE' : allocated (heap s) E).
  { subst E. unfold allocated in *. now apply Forall_take. }
  unfold evolve in H. simpl app in H.
  apply evolve_loop_invariant in H as (I1 & I2 & I3 & children & ->).
  - rewrite Hh1 in I2. split; [exact I1|]. split; [exact I2|]. split; [exact I3|].
    intros Hel. destruct S0 as [|b S0']; [now apply elem_of_nil in Hw'|].
    assert (Hpos : 0 < Z.to_nat (ceil_mul (len (b :: S0')) el_p)).
    { pose proof (ceil_mul_pos (len (b :: S0')) el_p ltac:(unfold len; simpl; lia) Hel). lia. }
    exists b. split; [|split].
    + apply elem_of_app. left. subst E.
      destruct (Z.to_nat (ceil_mul (len (b :: S0')) el_p)); [lia|].
      simpl. apply elem_of_cons. now left.
    + rewrite <- Hperm. apply elem_of_cons. now left.
    + intros y Hy. eapply ascending_head; [exact Hasc|]. now rewrite Hperm.
  - now rewrite Hh1.
  - rewrite Hh1. apply Forall_app. split; [exact HE'|].
    repeat constructor. exact (allocated_elem _ _ _ HS0 Hw').
  - now rewrite Hh1.
Qed.

Lemma generations_invariant fuel el_p to_p function epochs :
  forall population s R s',
    heap_all P (heap s) ->
    allocated (heap s) population ->
    generations G tape fuel el_p to_p function epochs population s = Ok R s' ->
    heap_all P (heap s') /\ allocated (heap s') R.
Proof.
  induction epochs as [|e IH]; intros pop s R s' Hh Hpop; simpl.
  - now intros [= <- <-].
  - intros H. apply bind_Ok in H as (pop1 & s1 & Hg & H).
    apply generation_invariant in Hg as (G1 & _ & G3 & _); [|assumption..].
    eapply IH; eauto.
Qed.

Lemma evolved_population_invariant fuel el_p to_p dim epochs function R s' :
  evolved_population G tape fuel el_p to_p dim epochs function start = Ok R s' ->
  heap_all P (heap s') /\ allocated (heap s') R.
Proof.
  unfold evolved_population. intros H.
  apply bind_Ok in H as (pop & s & Hi & H).
  apply initialize_population_invariant in Hi as [I1 I2]; [|constructor].
  eapply generations_invariant; eauto.
Qed.
End RunInvariant.

(** ** The search space *)

Lemma py_clamp_in_bounds (x lo hi : Q) :
  (lo <= hi)%Q -> (lo <= py_min (py_max x lo) hi /\ py_min (py_max x lo) hi <= hi)%Q.
Proof.
  intros H. unfold py_min, py_max.
  destruct (Qltb x lo) eqn:E1.
  - destruct (Qltb hi lo) eqn:E2.
    + apply Qltb_true in E2. exfalso. exact (Qlt_not_le _ _ E2 H).
    + split; [apply Qle_refl | exact H].
  - apply Qltb_false in E1. destruct (Qltb hi x) eqn:E2.
    + split; [exact H | apply Qle_refl].
    + apply Qltb_false in E2. split; assumption.
Qed.





Example mutation_clamps :
  mutation small_globals tape_mutate 2 (-5) 5 three_points =
    Ok 2 (mkState [[0; 0]; [1; 1]; [-5; -3]]%Q 3).
Proof. vm_compute. reflexivity. Qed.

(** ** Elitism *)

Lemma bind_assoc {A B C} (m : M A) (k : A -> M B) (k' : B -> M C) s :
  bind (bind m k) k' s = bind m (fun a => bind (k a) k') s.
Proof. unfold bind. now destruct (m s). Qed.

Lemma bind_ext {A B} (m : M A) (k k' : A -> M B) s :
  (forall a t, k a t = k' a t) -> bind m k s = bind m k' s.
Proof. intros H. unfold bind. now destruct (m s). Qed.

(** The epoch loop, one more round at the end. *)
Lemma generations_snoc G tape fuel el_p to_p function epochs :
  forall population s,
    generations G tape fuel el_p to_p function (S epochs) population s =
    bind (generations G tape fuel el_p to_p function epochs population)
         (generation G tape fuel el_p to_p function) s.
Proof.
  induction epochs as [|e IH]; intros pop s.
  - simpl. unfold bind, ret. now destruct (generation _ _ _ _ _ _ _ _).
  - change (generations G tape fuel el_p to_p function (S (S e)) pop s)
      with (bind (generation G tape fuel el_p to_p function pop)
                 (fun p => generations G tape fuel el_p to_p function (S e) p) s).
    change (generations G tape fuel el_p to_p function (S e) pop)
      with (bind (generation G tape fuel el_p to_p function pop)
                 (fun p => generations G tape fuel el_p to_p function e p)).
    rewrite bind_assoc. apply bind_ext. intros a t. apply IH.
Qed.

(** The value of [best_fitness] is the key of a chromosome of the population
    and no chromosome of the population has a smaller one. *)
Lemma best_fitness_eq function (population : list loc) s :
  allocated (heap s) population -> population <> [] ->
  exists b, b ∈ population /\
    best_fitness function population s = Ok (key_at function (heap s) b) s /\
    forall y, y ∈ population ->
      (key_at function (heap s) b <= key_at function (heap s) y)%Q.
Proof.
  intros Ha Hne. unfold best_fitness.
  rewrite (bind_eq _ _ _ _ _ (sorted_eq function population s Ha)).
  pose proof (sorted_keys_perm function (heap s) population) as Hperm.
  pose proof (sorted_keys_ascending function (heap s) population) as Hasc.
  destruct (map snd _) as [|b L].
  { apply Permutation_nil_l in Hperm. congruence. }
  assert (Hb : b ∈ population) by (rewrite <- Hperm; apply elem_of_cons; now left).
  destruct (lookup_lt_is_Some_2 _ _ (allocated_elem _ _ _ Ha Hb)) as [p Hp].
  exists b. split; [exact Hb|]. split.
  - rewrite (bind_eq _ _ _ _ _ (getitem_nat (b :: L) 0 b s eq_refl)).
    rewrite (bind_eq _ _ _ _ _ (deref_eq _ _ _ Hp)).
    unfold ret. now rewrite (key_at_eq _ _ _ _ Hp).
  - intros y Hy. eapply ascending_head; [exact Hasc|]. now rewrite Hperm.
Qed.

(** C3, elitism monotonicity. With a positive proportion of elites, whenever
    a run reaches the end of generation [g + 1], it reached the end of
    generation [g], and the best fitness of the population after generation
    [g + 1] is at most the best fitness of the population after generation
    [g], each being the least value of the fitness function over its
    population. *)
Theorem elitism_monotonicity G tape fuel el_p to_p dim function (g : nat) population' s' :
  (0 < el_p)%Q ->
  evolved_population G tape fuel el_p to_p dim (Z.of_nat (S g)) function start
    = Ok population' s' ->
  exists population s m m',
    evolved_population G tape fuel el_p to_p dim (Z.of_nat g) function start
      = Ok population s /\
    best_fitness function population s = Ok m s /\
    least_fitness function (heap s) population m /\
    best_fitness function population' s' = Ok m' s' /\
    least_fitness function (heap s') population' m' /\
    (m' <= m)%Q.
Proof.
  intros Hel H. unfold evolved_population in *.
  apply bind_Ok in H as (pop0 & s0 & Hinit & H).
  rewrite Nat2Z.id in H. rewrite generations_snoc in H.
  apply bind_Ok in H as (pop & s & Hg & Hlast).
  assert (HT : forall h : list (list Q), heap_all (fun _ => True) h).
  { intros h. apply Forall_forall. intros p _. now apply Forall_forall. }
  assert (Ha : allocated (heap s) pop).
  { apply (initialize_population_invariant G tape (fun _ => True)) in Hinit as [_ Hi];
      [|auto|apply HT].
    apply (generations_invariant G tape (fun _ => True)) in Hg as [_ Hg]; auto. }
  apply (generation_invariant G tape (fun _ => True)) in Hlast
    as (_ & [_ F] & Ha' & Hbest); [|auto|apply HT|exact Ha].
  destruct (Hbest Hel) as (b & Hb' & Hb & Hmin).
  destruct (best_fitness_eq function pop s Ha) as (b0 & Hb0 & E0 & Hmin0).
  { intros ->. now apply elem_of_nil in Hb. }
  destruct (best_fitness_eq function population' s' Ha') as (b1 & Hb1 & E1 & Hmin1).
  { intros ->. now apply elem_of_nil in Hb'. }
  exists pop, s, (key_at function (heap s) b0), (key_at function (heap s') b1).
  split; [|split; [exact E0 | split; [|split; [exact E1 | split]]]].
  - rewrite (bind_eq _ _ _ _ _ Hinit). now rewrite Nat2Z.id.
  - split; [eauto | exact Hmin0].
  - split; [eauto | exact Hmin1].
  - eapply Qle_trans; [apply (Hmin1 b Hb')|].
    replace (key_at function (heap s') b) with (key_at function (heap s) b).
    + now apply Hmin.
    + unfold key_at. rewrite F; [reflexivity|]. eapply allocated_elem; eauto.
Qed.

Lemma elitism_monotonicity_witness :
  exists population s m m',
    evolved_population small_globals tape_generation 2 (1 # 4) (1 # 2) 2 (Z.of_nat 0)
      styb_tang start = Ok population s /\
    best_fitness styb_tang population s = Ok m s /\
    least_fitness styb_tang (heap s) population m /\
    best_fitness styb_tang (value_of first_generation []) (state_of first_generation)
      = Ok m' (state_of first_generation) /\
    least_fitness styb_tang (heap (state_of first_generation))
      (value_of first_generation []) m' /\
    (m' <= m)%Q.
Proof.
  apply (elitism_monotonicity small_globals tape_generation 2 (1 # 4) (1 # 2) 2 styb_tang 0).
  - reflexivity.
  - vm_compute. reflexivity.
Defined.


(** * Further properties *)

(** ** Elite selection *)

Lemma bind_Raise {A B} (m : M A) (k : A -> M B) s e : m s = Raise e -> bind m k s = Raise e.
Proof. unfold bind. now intros ->. Qed.

Lemma bind_ret_l {A B} (a : A) (k : A -> M B) s : bind (ret a) k s = k a s.
Proof. reflexivity. Qed.


(** The loop of [elite_selection] from index [i]. *)
Lemma elite_loop (population : list loc) s n :
  forall (i : nat) elites,
    for_range n (Z.of_nat i)
      (fun i elites => x <- getitem population i ;; ret (elites ++ [x])) elites s =
    if i + n <=? length population
    then Ok (elites ++ take n (drop i population)) s
    else match n with O => Ok elites s | S _ => Raise IndexError end.
Proof.
  induction n as [|n IH]; intros i elites.
  - simpl. rewrite take_0, app_nil_r. now destruct (i + 0 <=? length population).
  - cbn [for_range].
    destruct (Nat.lt_ge_cases i (length population)) as [Hi|Hi].
    + destruct (lookup_lt_is_Some_2 _ _ Hi) as [x Hx].
      rewrite bind_assoc, (bind_eq _ _ _ _ _ (getitem_nat _ _ _ s Hx)), bind_ret_l.
      replace (Z.of_nat i + 1)%Z with (Z.of_nat (S i)) by lia.
      rewrite IH. rewrite (drop_S _ _ _ Hx). cbn [take]. rewrite <- app_assoc. simpl app.
      replace (S i + n) with (i + S n) by lia.
      destruct (Nat.leb_spec (i + S n) (length population)); [reflexivity|].
      destruct n; [lia | reflexivity].
    + destruct (Nat.leb_spec (i + S n) (length population)); [lia|].
      apply bind_Raise, bind_Raise. unfold getitem, len, norm_index. destruct (Z.ltb_spec (Z.of_nat i) 0); [lia|].
      destruct (Z.leb_spec 0 (Z.of_nat i)); [|lia].
      destruct (Z.ltb_spec (Z.of_nat i) (Z.of_nat (length population))); [lia|].
      reflexivity.
Qed.

Lemma elite_selection_eq (population : list loc) percent s :
  elite_selection population percent s =
    if Z.to_nat (ceil_mul (len population) percent) <=? length population
    then Ok (take (Z.to_nat (ceil_mul (len population) percent)) population) s
    else Raise IndexError.
Proof.
  unfold elite_selection, range_loop.
  rewrite (elite_loop population s _ 0 []). simpl. rewrite drop_0.
  destruct (Nat.leb_spec (Z.to_nat (ceil_mul (len population) percent)) (length population));
    [reflexivity|].
  destruct (Z.to_nat (ceil_mul (len population) percent)); [lia | reflexivity].
Qed.


Lemma ceil_mul_nonpos n percent : (0 <= n)%Z -> (percent <= 0)%Q -> (ceil_mul n percent <= 0)%Z.
Proof.
  intros Hn Hp. unfold ceil_mul. rewrite <- (Qceiling_Z 0).
  apply Qceiling_resp_le. change (inject_Z 0) with 0%Q.
  assert (0 <= inject_Z n)%Q by (change 0%Q with (inject_Z 0); now rewrite <- Zle_Qle).
  nra.
Qed.





(** ** Tournament selection at the edges *)

Lemma tournament_without_entrant tape (population : list loc) percent s :
  population = [] \/ (percent <= 0)%Q ->
  tournament_selection tape population percent s = Raise IndexError.
Proof.
  intros H.
  assert (Hk : Z.to_nat (ceil_mul (len population) percent) = 0).
  { destruct H as [->|H].
    - unfold ceil_mul, len. simpl. rewrite Qmult_0_l. reflexivity.
    - pose proof (ceil_mul_nonpos (len population) percent ltac:(unfold len; lia) H). lia. }
  unfold tournament_selection, range_loop. rewrite Hk. reflexivity.
Qed.





(** ** The loop of [evolve] at the edges *)

(** X5, no room for offspring. When the elites already number [POP_SIZE] or
    more, [evolve] returns the elites alone, draws nothing and leaves the
    store as it is, whatever the mating pool. *)
Theorem evolve_full_of_elites G tape fuel (mating_pool elites : list loc) s :
  (POP_SIZE G <= len elites)%Z ->
  evolve G tape fuel mating_pool elites s = Ok elites s.
Proof.
  intros H. unfold evolve. simpl app.
  destruct fuel; simpl; destruct (Z.ltb_spec (len elites) (POP_SIZE G)); (lia || reflexivity).
Qed.

Lemma evolve_full_of_elites_witness :
  evolve small_globals tape_generation 0 [0; 1; 2] [2; 1; 0; 1] three_points
    = Ok [2; 1; 0; 1] three_points.
Proof.
  apply (evolve_full_of_elites small_globals tape_generation 0 [0; 1; 2] [2; 1; 0; 1]
           three_points).
  discriminate.
Defined.

(** ** The rates at their extremes *)

Section Rates.
Variable G : globals.
Variable tape : nat -> N.

Lemma triggers_always c : (1 <= MUTAT_RATE G)%Q -> triggers G tape c = true.
Proof.
  intros H. unfold triggers. apply Qle_bool_iff. rewrite uniform_unit.
  destruct (unit_of_range (tape c)) as [_ U]. lra.
Qed.

Lemma triggers_never c : (MUTAT_RATE G < 0)%Q -> triggers G tape c = false.
Proof.
  intros H. unfold triggers. destruct (Qle_bool _ _) eqn:E; [|reflexivity].
  apply Qle_bool_iff in E. rewrite uniform_unit in E.
  destruct (unit_of_range (tape c)) as [U _]. lra.
Qed.

Lemma trigger_cursor_always c i :
  (1 <= MUTAT_RATE G)%Q -> trigger_cursor G tape c i = c + 2 * i.
Proof.
  intros H. induction i as [|i IH]; simpl; [lia|].
  rewrite triggers_always by exact H. lia.
Qed.

Lemma trigger_cursor_never c i :
  (MUTAT_RATE G < 0)%Q -> trigger_cursor G tape c i = c + i.
Proof.
  intros H. induction i as [|i IH]; simpl; [lia|].
  rewrite triggers_never by exact H. lia.
Qed.

(** X6, mutation clamp. With a mutation rate of 1 or more every gene is
    perturbed, two draws are read per gene, and when [s_min <= s_max] every
    gene of the result lies in [[s_min, s_max]], whatever the genes were
    before. *)
Theorem mutation_rate_one_clamps child (p : list Q) s_min s_max s :
  heap s !! child = Some p ->
  (1 <= MUTAT_RATE G)%Q ->
  (s_min <= s_max)%Q ->
  exists p' : list Q,
    mutation G tape child s_min s_max s
      = Ok child (mkState (<[child := p']> (heap s)) (cursor s + 2 * length p)) /\
    length p' = length p /\
    forall x, x ∈ p' -> (s_min <= x /\ x <= s_max)%Q.
Proof.
  intros Hc Hr Hb. eexists. split; [|split].
  - rewrite (mutation_exact G tape child p s_min s_max s Hc).
    now rewrite trigger_cursor_always.
  - apply length_imap.
  - intros x Hx. apply list_elem_of_lookup in Hx as [i Hi].
    rewrite list_lookup_imap in Hi. destruct (p !! i) as [y|]; [|discriminate].
    injection Hi as <-. unfold mutated_gene. rewrite triggers_always by exact Hr.
    unfold perturbed. now apply py_clamp_in_bounds.
Qed.

(** X7, mutation switched off. With a negative mutation rate no gene ever
    triggers: [mutation] reads one draw per gene and leaves the whole store as
    it was. *)
Theorem mutation_negative_rate_identity child (p : list Q) s_min s_max s :
  heap s !! child = Some p ->
  (MUTAT_RATE G < 0)%Q ->
  mutation G tape child s_min s_max s
    = Ok child (mkState (heap s) (cursor s + length p)).
Proof.
  intros Hc Hr. rewrite (mutation_exact G tape child p s_min s_max s Hc).
  rewrite trigger_cursor_never by exact Hr. do 2 f_equal.
  apply list_insert_id. rewrite Hc. f_equal. apply list_eq. intros i.
  rewrite list_lookup_imap. destruct (p !! i); [simpl|reflexivity].
  unfold mutated_gene. now rewrite triggers_never.
Qed.

(** X8, crossover rate one. With a crossover rate of 1 or more the rate draw,
    which is below 1, never skips: on parents of equal length of at least two
    genes [crossover] always recombines, at a pivot between 1 and the length
    minus 1, and reads exactly two draws. *)
Theorem crossover_rate_one_recombines a b (pa pb : list Q) s :
  heap s !! a = Some pa -> heap s !! b = Some pb ->
  length pa = length pb -> 2 <= length pa ->
  (1 <= CROSS_RATE G)%Q ->
  exists pivot,
    1 <= pivot <= length pa - 1 /\
    crossover G tape a b s =
      Ok (length (heap s), S (length (heap s)))
         (mkState (heap s ++ [take pivot pa ++ drop pivot pb; take pivot pb ++ drop pivot pa])
                  (S (S (cursor s)))).
Proof.
  intros Ha Hb Hl Hn Hr.
  assert (Hu : Qle_bool (CROSS_RATE G) (uniform_of 0 1 (tape (cursor s))) = false).
  { destruct (Qle_bool _ _) eqn:E; [|reflexivity]. apply Qle_bool_iff in E.
    rewrite uniform_unit in E. destruct (unit_of_range (tape (cursor s))) as [_ U]. lra. }
  pose proof (below_range (len pa - 1) (tape (S (cursor s))) ltac:(unfold len; lia)) as Hp.
  eexists. split; [|apply (crossover_recombine G tape a b pa pb s Ha Hb Hl Hn Hu)].
  unfold len in *. lia.
Qed.
End Rates.

Lemma mutation_rate_one_clamps_witness :
  exists p' : list Q,
    mutation always_globals tape_skip 0 (-5) 5 two_parents
      = Ok 0 (mkState (<[0 := p']> (heap two_parents))
                      (cursor two_parents + 2 * length [1; 2; 3; 4]%Q)) /\
    length p' = length [1; 2; 3; 4]%Q /\
    forall x, x ∈ p' -> (-5 <= x /\ x <= 5)%Q.
Proof.
  apply (mutation_rate_one_clamps always_globals tape_skip 0 [1; 2; 3; 4]%Q (-5) 5 two_parents);
    [reflexivity | discriminate | discriminate].
Defined.

Lemma mutation_negative_rate_witness :
  mutation never_globals tape_skip 0 (-5) 5 two_parents
    = Ok 0 (mkState (heap two_parents) (cursor two_parents + length [1; 2; 3; 4]%Q)).
Proof.
  apply (mutation_negative_rate_identity never_globals tape_skip 0 [1; 2; 3; 4]%Q (-5) 5
           two_parents); reflexivity.
Defined.

Lemma crossover_rate_one_witness :
  exists pivot,
    1 <= pivot <= length [1; 2; 3; 4]%Q - 1 /\
    crossover always_globals tape_skip 0 1 two_parents =
      Ok (length (heap two_parents), S (length (heap two_parents)))
         (mkState (heap two_parents ++
                     [take pivot [1; 2; 3; 4]%Q ++ drop pivot [5; 6; 7; 8]%Q;
                      take pivot [5; 6; 7; 8]%Q ++ drop pivot [1; 2; 3; 4]%Q])
                  (S (S (cursor two_parents)))).
Proof.
  apply (crossover_rate_one_recombines always_globals tape_skip 0 1
           [1; 2; 3; 4]%Q [5; 6; 7; 8]%Q two_parents);
    [reflexivity | reflexivity | reflexivity | simpl; lia | discriminate].
Defined.

(** ** The Styblinski-Tang function *)

Lemma Qsquare_nonneg (x : Q) : (0 <= x * x)%Q.
Proof. nra. Qed.

Lemma styb_term_bound (d : Q) : (-79 <= d ^ 4 - 16 * d ^ 2 + 5 * d)%Q.
Proof.
  pose proof (Qsquare_nonneg (d * d - (17 # 2))) as H1.
  pose proof (Qsquare_nonneg (d + (5 # 2))) as H2.
  simpl. lra.
Qed.



Lemma styb_sum_bound (p : list Q) :
  (-79 * inject_Z (len p) <=
   fold_left (fun summ d => summ + (d ^ 4 - 16 * d ^ 2 + 5 * d)) p 0)%Q.
Proof.
  induction p as [|x p IH] using rev_ind.
  - unfold len. cbn [fold_left length]. change (inject_Z (Z.of_nat 0)) with 0%Q. lra.
  - rewrite fold_left_app. cbn [fold_left].
    pose proof (styb_term_bound x) as Hx.
    unfold len in *. rewrite length_app. simpl length.
    rewrite Nat2Z.inj_add, inject_Z_plus. change (inject_Z (Z.of_nat 1)) with 1%Q.
    set (t := (x ^ 4 - 16 * x ^ 2 + 5 * x)%Q) in *. clearbody t. lra.
Qed.

(** X9, a floor under the fitness. The value of [styb_tang] is never below
    -39.5 per coordinate of the point. *)
Theorem styb_tang_lower_bound (p : list Q) :
  (- (79 # 2) * inject_Z (len p) <= styb_tang p)%Q.
Proof.
  unfold styb_tang. pose proof (styb_sum_bound p) as H.
  set (t := fold_left _ p 0%Q) in *. set (n := inject_Z (len p)) in *. clearbody t n.
  change (1 / 2)%Q with (1 # 2)%Q. lra.
Qed.


(** ** The initial population *)

Lemma initialize_row tape min max (h : list (list Q)) c d :
  for_range d 0%Z (fun _ _ => x <- uniform tape min max ;; append (length h) x) tt
            (mkState (h ++ [[]]) c) =
  Ok tt (mkState (h ++ [map (fun j => uniform_of min max (tape (c + j))) (seq 0 d)]) (c + d)).
Proof.
  pose (I := fun (j : Z) (_ : unit) (t : state) =>
               t = mkState (h ++ [map (fun j => uniform_of min max (tape (c + j)))
                                      (seq 0 (Z.to_nat j))]) (c + Z.to_nat j)).
  destruct (returns_for_range I (fun _ _ => x <- uniform tape min max ;; append (length h) x)
              d 0%Z tt (mkState (h ++ [[]]) c)) as ([] & t & Hfor & Ht).
  - unfold I. simpl. now rewrite Nat.add_0_r.
  - intros j [] t Hj ->.
    assert (exists i, j = Z.of_nat i) as [i ->] by (exists (Z.to_nat j); lia).
    unfold returns, I. rewrite Nat2Z.id.
    rewrite (bind_eq _ _ _ _ _ (uniform_eq _ _ _ _)). cbn [heap cursor].
    erewrite append_eq
      by (cbn [heap]; rewrite lookup_app_r by lia; rewrite Nat.sub_diag; reflexivity).
    cbn [heap cursor]. eexists _, _. split; [reflexivity|].
    replace (Z.to_nat (Z.of_nat i + 1)) with (S i) by lia.
    rewrite insert_app_r_alt by lia. rewrite Nat.sub_diag. cbn [insert list_insert].
    rewrite seq_S, map_app. simpl. f_equal. lia.
  - rewrite Hfor. unfold I in Ht. subst t.
    now replace (Z.to_nat (0 + Z.of_nat d)) with d by lia.
Qed.

Lemma initialize_population_eq tape size dim min max s :
  initialize_population tape size dim min max s =
    Ok (seq (length (heap s)) (Z.to_nat size))
       (mkState (heap s ++ new_points tape min max (cursor s) (Z.to_nat size) (Z.to_nat dim))
                (cursor s + Z.to_nat size * Z.to_nat dim)).
Proof.
  unfold initialize_population, range_loop.
  set (n := Z.to_nat size). set (d := Z.to_nat dim). destruct s as [h c]. cbn [heap cursor].
  pose (I := fun (i : Z) (pop : list loc) (t : state) =>
               t = mkState (h ++ new_points tape min max c (Z.to_nat i) d)
                           (c + Z.to_nat i * d) /\
               pop = seq (length h) (Z.to_nat i)).
  match goal with |- for_range _ _ ?body _ _ = _ =>
    destruct (returns_for_range I body n 0%Z [] (mkState h c)) as (pop & t & Hfor & Ht & Hpop)
  end.
  - unfold I, new_points. simpl. now rewrite app_nil_r, Nat.add_0_r.
  - intros j pop t Hj [-> ->].
    assert (exists i, j = Z.of_nat i) as [i ->] by (exists (Z.to_nat j); lia).
    unfold returns. rewrite Nat2Z.id. cbv beta.
    unfold alloc at 1. unfold bind at 1. cbn [heap cursor].
    set (h1 := h ++ new_points tape min max c i d).
    rewrite (bind_eq _ _ _ _ _ (initialize_row tape min max h1 (c + i * d) d)).
    eexists _, _. split; [reflexivity|]. unfold I.
    replace (Z.to_nat (Z.of_nat i + 1)) with (S i) by lia. split.
    + f_equal; [|lia]. unfold h1, new_points. rewrite (seq_S i), map_app, app_assoc. reflexivity.
    + unfold h1, new_points. rewrite length_app, length_map, length_seq, seq_S. reflexivity.
  - rewrite Hfor. unfold I in *. subst t pop.
    now replace (Z.to_nat (0 + Z.of_nat n)) with n by lia.
Qed.

(** X11, the initial population. [initialize_population] always returns: it
    creates [size] chromosomes of [dim] coordinates at the next free
    addresses, in order, each coordinate being the next [uniform(min, max)]
    draw; it reads [size * dim] draws and leaves the chromosomes already in
    the store as they are. A [size] or [dim] of 0 or less counts as 0. *)
Theorem initialize_population_shape tape size dim min max s :
  initialize_population tape size dim min max s =
    Ok (seq (length (heap s)) (Z.to_nat size))
       (mkState (heap s ++ new_points tape min max (cursor s) (Z.to_nat size) (Z.to_nat dim))
                (cursor s + Z.to_nat size * Z.to_nat dim)).
Proof. apply initialize_population_eq. Qed.

Example initialize_population_closed_form :
  new_points (tape_of [eighth 1; eighth 6; eighth 2] lo) (-5) 5 0 1 2 =
    [[-5 + (5 - -5) * unit_of (eighth 1); -5 + (5 - -5) * unit_of (eighth 6)]]%Q.
Proof. reflexivity. Qed.
(** ** What a generation keeps and what it creates *)

Lemma True_all (h : list (list Q)) : heap_all (fun _ => True) h.
Proof. apply Forall_forall. intros p _. now apply Forall_forall. Qed.

(** The loop of [evolve] only appends chromosomes created during the loop and
    leaves the chromosomes it found as they are. *)
Lemma evolve_loop_offspring G tape fuel (mating_pool : list loc) :
  forall new_population s R s',
    evolve_loop G tape fuel mating_pool new_population s = Ok R s' ->
    frame (heap s) (heap s') /\
    exists children,
      R = new_population ++ children /\
      Forall (fun c => length (heap s) <= c < length (heap s')) children.
Proof.
  induction fuel as [|fuel IH]; intros pop s R s'; simpl;
    destruct (len pop <? POP_SIZE G)%Z.
  - discriminate.
  - intros [= <- <-]. split; [apply frame_refl|]. exists []. now rewrite app_nil_r.
  - intros H.
    apply bind_Ok in H as (ia & s1 & Hia & H). apply randrange_Ok in Hia as [H1 _].
    apply bind_Ok in H as (ib & s2 & Hib & H). apply randrange_Ok in Hib as [H2 _].
    rewrite H1 in H2. clear H1 s1.
    destruct (ia =? ib)%Z.
    + rewrite <- H2. now apply IH.
    + apply bind_Ok in H as (pa & t & Hpa & H). apply getitem_Ok in Hpa as [-> _].
      apply bind_Ok in H as (pb & t & Hpb & H). apply getitem_Ok in Hpb as [-> _].
      apply bind_Ok in H as (ch & s3 & Hc & H).
      apply (crossover_invariant G tape (fun _ => True)) in Hc as (_ & C2 & C3 & C4);
        [|apply True_all].
      apply bind_Ok in H as (ca & s4 & Hma & H).
      apply (mutation_invariant G tape (fun _ => True)) in Hma as (-> & _ & M2 & M3);
        [|auto|apply True_all].
      apply bind_Ok in H as (cb & s5 & Hmb & H).
      apply (mutation_invariant G tape (fun _ => True)) in Hmb as (-> & _ & N2 & N3);
        [|auto|apply True_all].
      rewrite H2 in *.
      assert (F : frame (heap s) (heap s5)).
      { destruct C2 as [L F]. split; [lia|]. intros r Hr.
        rewrite N3 by lia. rewrite M3 by lia. now apply F. }
      apply IH in H as (I2 & children & -> & I3).
      split; [eapply frame_trans; eauto|].
      exists ([fst ch] ++ [snd ch] ++ children). split; [now rewrite <- !app_assoc|].
      destruct F as [L _], I2 as [L' _].
      repeat (apply Forall_cons; split); [lia | lia |].
      eapply Forall_impl; [exact I3|]. intros c Hc. simpl in Hc. lia.
  - intros [= <- <-]. split; [apply frame_refl|]. exists []. now rewrite app_nil_r.
Qed.

(** X12, what [evolve] returns. Whenever [evolve] returns, its result is the
    elites, in order, followed by chromosomes created during the call; the
    chromosomes that were in the store are unchanged; and the result has
    [POP_SIZE] entries when [POP_SIZE] minus the number of elites is even and
    positive, one more when it is odd, and is the elites alone when they
    already number [POP_SIZE] or more. *)
Theorem evolve_offspring G tape fuel (mating_pool elites R : list loc) s s' :
  evolve G tape fuel mating_pool elites s = Ok R s' ->
  frame (heap s) (heap s') /\
  len R = (if (len elites <? POP_SIZE G)%Z
           then POP_SIZE G + (POP_SIZE G - len elites) mod 2
           else len elites)%Z /\
  exists children,
    R = elites ++ children /\
    Forall (fun c => length (heap s) <= c < length (heap s')) children.
Proof.
  intros H. unfold evolve in H. simpl app in H.
  pose proof (evolve_loop_length G tape fuel mating_pool elites s R s' H) as Hlen.
  apply evolve_loop_offspring in H as (F & children & -> & Hc).
  split; [exact F|]. split; [exact Hlen|]. eauto.
Qed.

Lemma generation_structure G tape fuel el_p to_p function (population R : list loc) s s' :
  generation G tape fuel el_p to_p function population s = Ok R s' ->
  frame (heap s) (heap s') /\
  exists ranked children,
    sorted function population s = Ok ranked s /\
    R = take (Z.to_nat (ceil_mul (len population) el_p)) ranked ++ children /\
    Z.to_nat (ceil_mul (len population) el_p) <= length population /\
    Forall (fun c => length (heap s) <= c < length (heap s')) children.
Proof.
  intros H. unfold generation in H.
  apply bind_Ok in H as (S0 & t & Hs & H).
  pose proof Hs as Hs'. apply sorted_Ok in Hs' as (-> & Hperm & _ & _).
  apply bind_Ok in H as (E & t & He & H).
  apply elite_selection_Ok in He as (-> & HE & Hk).
  apply bind_Ok in H as ([w rest] & s1 & Ht & H).
  apply tournament_selection_Ok in Ht as [Hh1 _]. cbn [fst] in H.
  unfold evolve in H. simpl app in H.
  apply evolve_loop_offspring in H as (F & children & -> & Hc).
  assert (Hlen : len S0 = len population)
    by (unfold len; now rewrite (Permutation_length Hperm)).
  rewrite Hlen in *. rewrite Hh1 in *.
  split; [exact F|]. exists S0, children.
  split; [exact Hs|]. split; [now rewrite HE|]. split; [|exact Hc].
  unfold len in Hlen. apply Nat2Z.inj in Hlen. lia.
Qed.


Lemma evolve_offspring_witness :
  frame (heap three_points) (heap (state_of evolve_run)) /\
  len (value_of evolve_run []) =
    (if (len [2] <? POP_SIZE small_globals)%Z
     then POP_SIZE small_globals + (POP_SIZE small_globals - len [2]) mod 2
     else len [2])%Z /\
  exists children,
    value_of evolve_run [] = [2] ++ children /\
    Forall (fun c => length (heap three_points) <= c < length (heap (state_of evolve_run)))
           children.
Proof.
  apply (evolve_offspring small_globals tape_evolve 2 [0; 1] [2] (value_of evolve_run [])
           three_points (state_of evolve_run)).
  vm_compute. reflexivity.
Defined.

Example evolve_run_value : value_of evolve_run [] = [2; 3; 4; 5; 6].
Proof. vm_compute. reflexivity. Qed.

(** ** The size of the population along a run *)

Lemma generation_size G tape fuel el_p to_p function (population R : list loc) s s' :
  generation G tape fuel el_p to_p function population s = Ok R s' ->
  let k := Z.of_nat (Z.to_nat (ceil_mul (len population) el_p)) in
  (k <= len population)%Z /\
  len R = (if (k <? POP_SIZE G)%Z then POP_SIZE G + (POP_SIZE G - k) mod 2 else k)%Z.
Proof.
  intros H k. pose proof H as H0.
  apply generation_structure in H0 as (_ & S0 & children & Hs & -> & Hk & _).
  apply sorted_Ok in Hs as (_ & Hperm & _ & _).
  unfold generation in H.
  apply bind_Ok in H as (S1 & t & Hs1 & H).
  pose proof Hs1 as Hs2. apply sorted_Ok in Hs2 as (-> & Hperm1 & _ & _).
  apply bind_Ok in H as (E & t & He & H).
  apply elite_selection_Ok in He as (-> & HE & HkE).
  apply bind_Ok in H as (wr & s1 & Ht & H).
  unfold evolve in H. simpl app in H.
  apply evolve_loop_length in H.
  pose proof (Permutation_length Hperm1) as Hn.
  assert (Hlen : len S1 = len population) by (unfold len; now rewrite Hn).
  rewrite Hlen in HE, HkE.
  assert (HlE : len E = k).
  { subst E. unfold k, len in *. rewrite length_take. lia. }
  rewrite HlE in H. split; [unfold k, len in *; lia | exact H].
Qed.

Lemma generations_size_bounds G tape fuel el_p to_p function epochs :
  forall (population R : list loc) s s',
    (POP_SIZE G <= len population <= POP_SIZE G + 1)%Z ->
    generations G tape fuel el_p to_p function epochs population s = Ok R s' ->
    (POP_SIZE G <= len R <= POP_SIZE G + 1)%Z.
Proof.
  induction epochs as [|e IH]; intros pop R s s' Hb; simpl.
  - now intros [= <- <-].
  - intros H. apply bind_Ok in H as (pop1 & s1 & Hg & H).
    apply generation_size in Hg as [Hk Hl]. cbv zeta in *.
    eapply IH; [|exact H]. rewrite Hl.
    destruct (Z.ltb_spec (Z.of_nat (Z.to_nat (ceil_mul (len pop) el_p))) (POP_SIZE G));
      [Z.div_mod_to_equations; lia | lia].
Qed.

Lemma initial_size G tape dim (population : list loc) s s' :
  (0 <= POP_SIZE G)%Z ->
  initialize_population tape (POP_SIZE G) dim (SEARCH_MIN G) (SEARCH_MAX G) s
    = Ok population s' ->
  len population = POP_SIZE G.
Proof.
  intros H0 H. rewrite initialize_population_eq in H. injection H as <- _.
  unfold len. rewrite length_seq. lia.
Qed.

(** X14, the population size stays within one of [POP_SIZE]. For a
    non-negative [POP_SIZE], the population that a run holds after any number
    of generations has [POP_SIZE] or [POP_SIZE + 1] chromosomes. *)
Theorem population_size_bounds G tape fuel el_p to_p dim epochs function
    (population : list loc) s' :
  (0 <= POP_SIZE G)%Z ->
  evolved_population G tape fuel el_p to_p dim epochs function start = Ok population s' ->
  (POP_SIZE G <= len population <= POP_SIZE G + 1)%Z.
Proof.
  intros H0 H. unfold evolved_population in H.
  apply bind_Ok in H as (pop & s & Hi & H).
  apply (initial_size G tape dim pop start s H0) in Hi.
  eapply generations_size_bounds; [|exact H]. lia.
Qed.



Lemma population_size_bounds_witness :
  (POP_SIZE small_globals <= len (value_of first_generation [])
   <= POP_SIZE small_globals + 1)%Z.
Proof.
  apply (population_size_bounds small_globals tape_generation 2 (1 # 4) (1 # 2) 2 1 styb_tang
           (value_of first_generation []) (state_of first_generation)).
  - discriminate.
  - vm_compute. reflexivity.
Defined.


Example main_globals_even :
  ((POP_SIZE main_globals - ceil_mul (POP_SIZE main_globals) (1 # 100)) mod 2 = 0)%Z.
Proof. reflexivity. Qed.

(** ** The dimension of the chromosomes along a run *)

Lemma len_at_Ok_value r s n s' :
  len_at r s = Ok n s' -> s' = s /\ exists p : list Q, heap s !! r = Some p /\ n = len p.
Proof.
  unfold len_at. intros H. apply bind_Ok in H as (p & t & Hp & [= <- <-]).
  apply deref_Ok in Hp as [-> Hp]. eauto.
Qed.

Section Dimension.
Variable G : globals.
Variable tape : nat -> N.
Variable d : nat.

Lemma crossover_dimension a b s ch s' :
  heap_dim d (heap s) ->
  crossover G tape a b s = Ok ch s' ->
  heap_dim d (heap s').
Proof.
  intros Hh H. unfold crossover in H.
  apply bind_Ok in H as (u & s1 & Hu & H). apply uniform_Ok in Hu as [Hu _].
  destruct (Qle_bool (CROSS_RATE G) u).
  - unfold deepcopy_pair in H.
    apply bind_Ok in H as (pa & t & Hpa & H). apply deref_Ok in Hpa as [-> Hpa].
    apply bind_Ok in H as (a' & s2 & Ha' & H). injection Ha' as <- <-.
    rewrite Hu in *.
    assert (Hla : length pa = d) by exact (Forall_lookup_1 _ _ _ _ Hh Hpa).
    destruct (a =? b).
    + injection H as <- <-. cbn [heap]. apply Forall_app. split; [exact Hh | now constructor].
    + apply bind_Ok in H as (pb & t & Hpb & H). apply deref_Ok in Hpb as [-> Hpb].
      apply bind_Ok in H as (b' & s3 & Hb' & H). injection Hb' as <- <-.
      injection H as <- <-. cbn [heap] in *.
      assert (H1 : heap_dim d (heap s ++ [pa]))
        by (apply Forall_app; split; [exact Hh | now constructor]).
      apply Forall_app. split; [exact H1|]. constructor; [|constructor].
      exact (Forall_lookup_1 _ _ _ _ H1 Hpb).
  - apply bind_Ok in H as (ca & s2 & Hca & H). injection Hca as <- <-.
    apply bind_Ok in H as (cb & s3 & Hcb & H). injection Hcb as <- <-.
    cbn [heap cursor] in H. rewrite Hu in *. set (h := heap s) in *.
    rewrite length_app in H. simpl length in H. rewrite <- app_assoc in H. simpl app in H.
    apply bind_Ok in H as (n & t & Hn & H). apply len_at_Ok_value in Hn as (-> & pa & Hpa & ->).
    cbn [heap] in Hpa.
    apply bind_Ok in H as (pivot & s4 & Hpv & H).
    pose proof Hpv as Hpv'. apply randint_Ok in Hpv' as [Hh4 Hrange]. cbn [heap] in Hh4.
    assert (Hla : length pa = d).
    { destruct (Nat.lt_ge_cases a (length h)) as [Hlt|Hge].
      - rewrite lookup_app_l in Hpa by exact Hlt. exact (Forall_lookup_1 _ _ _ _ Hh Hpa).
      - rewrite lookup_app_r in Hpa by exact Hge.
        assert (pa = []) as ->.
        { destruct (a - length h) as [|[|k]]; cbn in Hpa; [congruence | congruence |].
          destruct k; discriminate. }
        unfold len in Hrange. simpl in Hrange. lia. }
    apply bind_Ok in H as (n' & t & Hn & H).
    apply len_at_Ok_value in Hn as (-> & pa' & Hpa' & ->).
    rewrite Hh4 in Hpa'. rewrite Hpa in Hpa'. injection Hpa' as <-.
    apply bind_Ok in H as ([] & s5 & Hloop & H). injection H as _ <-.
    pose (I := fun (j : Z) (_ : unit) (t : state) =>
                 exists ca cb : list Q,
                   heap t = h ++ [ca; cb] /\
                   length ca = Z.to_nat j /\ length cb = Z.to_nat j).
    unfold range_loop in Hloop.
    assert (HI : I (0 + Z.of_nat (Z.to_nat (len pa)))%Z tt s5).
    { refine (ensures_for_range I _ _ _ _ s4 _ _ _ _ Hloop).
      - exists [], []. rewrite Hh4. repeat split.
      - intros j [] t Hj (ca & cb & It & Ia & Ib) [] t' Hbody.
        assert (Hstep : forall src1 src2 x y t1 t2 t3 t4 (u1 u2 : unit),
                  load src1 j t = Ok x t1 -> append (length h) x t1 = Ok u1 t2 ->
                  load src2 j t2 = Ok y t3 -> append (length h + 1) y t3 = Ok u2 t4 ->
                  I (j + 1)%Z tt t4).
        { intros src1 src2 x y t1 t2 t3 t4 u1 u2 L1 A1 L2 A2.
          apply load_Ok in L1 as [-> _].
          apply append_Ok in A1 as (p1 & Hp1 & E1).
          apply load_Ok in L2 as [-> _].
          apply append_Ok in A2 as (p2 & Hp2 & E2).
          rewrite It in Hp1. rewrite lookup_app_r in Hp1 by lia.
          rewrite Nat.sub_diag in Hp1. injection Hp1 as <-.
          rewrite It in E1. rewrite insert_app_r_alt in E1 by lia.
          rewrite Nat.sub_diag in E1. cbn [insert list_insert] in E1.
          rewrite E1 in Hp2. rewrite lookup_app_r in Hp2 by lia.
          replace (length h + 1 - length h) with 1 in Hp2 by lia. injection Hp2 as <-.
          rewrite E1 in E2. rewrite insert_app_r_alt in E2 by lia.
          replace (length h + 1 - length h) with 1 in E2 by lia.
          cbn [insert list_insert] in E2.
          exists (ca ++ [x]), (cb ++ [y]). split; [exact E2|].
          rewrite !length_app. simpl. lia. }
        destruct (j <? pivot)%Z;
          apply bind_Ok in Hbody as (x & t1 & Hx & Hbody);
          apply bind_Ok in Hbody as (u1 & t2 & A1 & Hbody);
          apply bind_Ok in Hbody as (y & t3 & Hy & A2);
          eapply Hstep; eauto. }
    destruct HI as (ca & cb & -> & Ia & Ib).
    replace (Z.to_nat (0 + Z.of_nat (Z.to_nat (len pa)))) with (length pa) in *
      by (unfold len; lia).
    apply Forall_app. split; [exact Hh|]. repeat constructor; congruence.
Qed.

Lemma mutation_dimension child s_min s_max s c' s' :
  heap_dim d (heap s) ->
  mutation G tape child s_min s_max s = Ok c' s' ->
  heap_dim d (heap s').
Proof.
  intros Hh H.
  assert (exists p, heap s !! child = Some p) as [p Hp].
  { unfold mutation in H. apply bind_Ok in H as (n & t & Hn & _).
    apply len_at_Ok_value in Hn as (_ & p & Hp & _). eauto. }
  rewrite (mutation_exact G tape child p _ _ s Hp) in H. injection H as _ <-.
  cbn [heap]. apply Forall_insert; [exact Hh|].
  rewrite length_imap. exact (Forall_lookup_1 _ _ _ _ Hh Hp).
Qed.

Lemma evolve_loop_dimension fuel (mating_pool : list loc) :
  forall new_population s R s',
    heap_dim d (heap s) ->
    evolve_loop G tape fuel mating_pool new_population s = Ok R s' ->
    heap_dim d (heap s').
Proof.
  induction fuel as [|fuel IH]; intros pop s R s' Hh; simpl;
    destruct (len pop <? POP_SIZE G)%Z.
  - discriminate.
  - now intros [= <- <-].
  - intros H.
    apply bind_Ok in H as (ia & s1 & Hia & H). apply randrange_Ok in Hia as [H1 _].
    apply bind_Ok in H as (ib & s2 & Hib & H). apply randrange_Ok in Hib as [H2 _].
    rewrite H1 in H2. clear H1 s1.
    destruct (ia =? ib)%Z.
    + eapply IH; [|exact H]. now rewrite H2.
    + apply bind_Ok in H as (pa & t & Hpa & H). apply getitem_Ok in Hpa as [-> _].
      apply bind_Ok in H as (pb & t & Hpb & H). apply getitem_Ok in Hpb as [-> _].
      apply bind_Ok in H as (ch & s3 & Hc & H).
      apply crossover_dimension in Hc; [|now rewrite H2].
      apply bind_Ok in H as (ca & s4 & Hma & H). apply mutation_dimension in Hma; [|exact Hc].
      apply bind_Ok in H as (cb & s5 & Hmb & H). apply mutation_dimension in Hmb; [|exact Hma].
      eapply IH; eauto.
  - now intros [= <- <-].
Qed.

Lemma generations_dimension fuel el_p to_p function epochs :
  forall (population R : list loc) s s',
    heap_dim d (heap s) ->
    generations G tape fuel el_p to_p function epochs population s = Ok R s' ->
    heap_dim d (heap s').
Proof.
  induction epochs as [|e IH]; intros pop R s s' Hh; simpl.
  - now intros [= <- <-].
  - intros H. apply bind_Ok in H as (pop1 & s1 & Hg & H).
    eapply IH; [|exact H]. unfold generation in Hg.
    apply bind_Ok in Hg as (S0 & t & Hs & Hg). apply sorted_Ok in Hs as (-> & _).
    apply bind_Ok in Hg as (E & t & He & Hg). apply elite_selection_Ok in He as (-> & _).
    apply bind_Ok in Hg as ([w rest] & t & Ht & Hg).
    apply tournament_selection_Ok in Ht as [Hh1 _].
    unfold evolve in Hg. eapply evolve_loop_dimension; [|exact Hg]. now rewrite Hh1.
Qed.
End Dimension.

(** X16, the dimension is kept. After any number of generations every
    chromosome of the population has exactly [dim] genes (none when [dim] is
    0 or less): crossover builds children of the parents' length and mutation
    keeps the length. *)
Theorem dimension_invariant G tape fuel el_p to_p dim epochs function
    (population : list loc) s' :
  evolved_population G tape fuel el_p to_p dim epochs function start = Ok population s' ->
  forall r, r ∈ population ->
    exists p : list Q, heap s' !! r = Some p /\ length p = Z.to_nat dim.
Proof.
  intros H r Hr.
  destruct (evolved_population_invariant G tape (fun _ => True)
              (fun _ _ _ => I) (fun _ => I) _ _ _ _ _ _ _ _ H) as [_ Ha].
  destruct (lookup_lt_is_Some_2 _ _ (allocated_elem _ _ _ Ha Hr)) as [p Hp].
  exists p. split; [exact Hp|].
  unfold evolved_population in H. apply bind_Ok in H as (pop & s & Hi & H).
  rewrite initialize_population_eq in Hi. injection Hi as _ <-.
  apply (generations_dimension G tape (Z.to_nat dim)) in H.
  - exact (Forall_lookup_1 _ _ _ _ H Hp).
  - cbn [heap start app]. unfold new_points. apply Forall_map, Forall_forall.
    intros i _. now rewrite length_map, length_seq.
Qed.

Lemma dimension_invariant_witness :
  exists p : list Q, heap (state_of even_run) !! 6 = Some p /\ length p = Z.to_nat 2.
Proof.
  apply (dimension_invariant small_globals tape_generation 3 (1 # 2) (1 # 2) 2 2 styb_tang
           (value_of even_run []) (state_of even_run)).
  - vm_compute. reflexivity.
  - vm_compute. do 2 constructor. constructor.
Defined.

(** ** What [genetic_algorithm] reports and when it fails *)

Lemma initial_allocated tape size dim min max :
  exists s0,
    initialize_population tape size dim min max start
      = Ok (seq 0 (Z.to_nat size)) s0 /\
    allocated (heap s0) (seq 0 (Z.to_nat size)).
Proof.
  eexists. split; [apply initialize_population_eq|].
  cbn [heap start app]. unfold allocated, new_points.
  rewrite length_map, length_seq. apply Forall_forall. intros r Hr.
  apply list_elem_of_In, in_seq in Hr. lia.
Qed.

Lemma ceil_mul_one n percent : (percent == 1)%Q -> ceil_mul n percent = n.
Proof.
  intros H. unfold ceil_mul. rewrite H, Qmult_1_r. apply Qceiling_Z.
Qed.

(** A generation whose elites are the whole population, or whose tournament
    has no entrant, fails. *)
Lemma generation_fails G tape fuel el_p to_p function (population : list loc) s :
  allocated (heap s) population ->
  (el_p == 1)%Q \/ (to_p <= 0)%Q \/ population = [] ->
  generation G tape fuel el_p to_p function population s = Raise IndexError.
Proof.
  intros Ha Hc. unfold generation.
  rewrite (bind_eq _ _ _ _ _ (sorted_eq function population s Ha)).
  pose proof (sorted_keys_perm function (heap s) population) as Hperm.
  set (S0 := map snd _) in *. cbv beta.
  unfold bind at 1. rewrite elite_selection_eq.
  destruct (Nat.leb_spec (Z.to_nat (ceil_mul (len S0) el_p)) (length S0)) as [Hk|Hk];
    [|reflexivity].
  apply bind_Raise. apply tournament_without_entrant.
  rewrite length_take, Nat.min_l by exact Hk.
  destruct Hc as [H1|[H0|He]].
  - left. rewrite (ceil_mul_one _ _ H1). unfold len. rewrite Nat2Z.id. apply drop_all.
  - now right.
  - left. subst population. apply Permutation_nil_r in Hperm. rewrite Hperm. apply drop_nil.
Qed.

Lemma first_generation_fails G tape fuel el_p to_p dim epochs function :
  (0 < epochs)%Z ->
  (el_p == 1)%Q \/ (to_p <= 0)%Q \/ (POP_SIZE G <= 0)%Z ->
  genetic_algorithm G tape fuel el_p to_p dim epochs function start = Raise IndexError.
Proof.
  intros He Hc. unfold genetic_algorithm, evolved_population. apply bind_Raise.
  destruct (initial_allocated tape (POP_SIZE G) dim (SEARCH_MIN G) (SEARCH_MAX G))
    as (s0 & Hi & Ha).
  rewrite (bind_eq _ _ _ _ _ Hi).
  destruct (Z.to_nat epochs) as [|e] eqn:E; [lia|]. cbn [generations].
  apply bind_Raise, generation_fails; [exact Ha|].
  destruct Hc as [H|[H|H]]; auto.
  right. right. now replace (Z.to_nat (POP_SIZE G)) with 0 by lia.
Qed.

(** X17, an elite proportion of one. With [el_p] equal to 1 and at least one
    epoch, the elites are the whole population, the tournament has nobody
    left to draw, and [genetic_algorithm] raises [IndexError] in the first
    generation, whatever the other parameters. *)
Theorem genetic_algorithm_all_elites G tape fuel el_p to_p dim epochs function :
  (0 < epochs)%Z -> (el_p == 1)%Q ->
  genetic_algorithm G tape fuel el_p to_p dim epochs function start = Raise IndexError.
Proof. intros He H. apply first_generation_fails; auto. Qed.


(** X19, an empty population. With [POP_SIZE] of 0 or less
    [genetic_algorithm] raises [IndexError], in the first generation or, with
    no epoch, when it reads the best of the empty final population. *)
Theorem genetic_algorithm_empty_population G tape fuel el_p to_p dim epochs function :
  (POP_SIZE G <= 0)%Z ->
  genetic_algorithm G tape fuel el_p to_p dim epochs function start = Raise IndexError.
Proof.
  intros H. destruct (Z.lt_ge_cases 0 epochs) as [He|He].
  - apply first_generation_fails; auto.
  - unfold genetic_algorithm, evolved_population.
    rewrite bind_assoc, (bind_eq _ _ _ _ _ (initialize_population_eq _ _ _ _ _ _)).
    replace (Z.to_nat epochs) with 0 by lia. replace (Z.to_nat (POP_SIZE G)) with 0 by lia.
    reflexivity.
Qed.

(** X20, the reported value. For a positive [POP_SIZE], whenever the epoch
    loop ends, [genetic_algorithm] returns, and the value it reports is the
    fitness of a chromosome of the final population that no chromosome of
    that population beats. *)
Theorem genetic_algorithm_reports_least G tape fuel el_p to_p dim epochs function
    (population : list loc) s' :
  (0 < POP_SIZE G)%Z ->
  evolved_population G tape fuel el_p to_p dim epochs function start = Ok population s' ->
  exists m,
    genetic_algorithm G tape fuel el_p to_p dim epochs function start = Ok m s' /\
    least_fitness function (heap s') population m.
Proof.
  intros H0 H.
  destruct (evolved_population_invariant G tape (fun _ => True)
              (fun _ _ _ => I) (fun _ => I) _ _ _ _ _ _ _ _ H) as [_ Ha].
  assert (Hne : population <> []).
  { pose proof H as H1. unfold evolved_population in H1.
    apply bind_Ok in H1 as (pop & s & Hi & H1).
    apply (initial_size G tape dim pop start s ltac:(lia)) in Hi.
    apply generations_size_bounds in H1; [|lia].
    intros ->. unfold len in H1. simpl in H1. lia. }
  destruct (best_fitness_eq function population s' Ha Hne) as (b & Hb & E & Hmin).
  exists (key_at function (heap s') b). split.
  - unfold genetic_algorithm. now rewrite (bind_eq _ _ _ _ _ H).
  - split; [eauto | exact Hmin].
Qed.

Lemma genetic_algorithm_all_elites_witness :
  genetic_algorithm small_globals tape_generation 2 1 (1 # 2) 2 1 styb_tang start
    = Raise IndexError.
Proof.
  apply (genetic_algorithm_all_elites small_globals tape_generation 2 1 (1 # 2) 2 1 styb_tang);
    reflexivity.
Defined.


Lemma genetic_algorithm_empty_population_witness :
  genetic_algorithm (mkGlobals 0 (-5) 5 (95 # 100) (5 # 100)) tape_generation 2
    (1 # 4) (1 # 2) 2 1 styb_tang start = Raise IndexError.
Proof.
  apply (genetic_algorithm_empty_population (mkGlobals 0 (-5) 5 (95 # 100) (5 # 100))
           tape_generation 2 (1 # 4) (1 # 2) 2 1 styb_tang).
  discriminate.
Defined.

Lemma genetic_algorithm_reports_least_witness :
  exists m,
    genetic_algorithm small_globals tape_generation 3 (1 # 2) (1 # 2) 2 2 styb_tang start
      = Ok m (state_of even_run) /\
    least_fitness styb_tang (heap (state_of even_run)) (value_of even_run []) m.
Proof.
  apply (genetic_algorithm_reports_least small_globals tape_generation 3 (1 # 2) (1 # 2) 2 2
           styb_tang (value_of even_run []) (state_of even_run)).
  - reflexivity.
  - vm_compute. reflexivity.
Defined.
Lemma evolved_population_dimension G tape fuel el_p to_p dim epochs function
    (population : list loc) s' :
  evolved_population G tape fuel el_p to_p dim epochs function start = Ok population s' ->
  heap_dim (Z.to_nat dim) (heap s').
Proof.
  intros H. unfold evolved_population in H. apply bind_Ok in H as (pop & s & Hi & H).
  rewrite initialize_population_eq in Hi. injection Hi as _ <-.
  apply (generations_dimension G tape (Z.to_nat dim)) in H; [exact H|].
  cbn [heap start app]. unfold new_points. apply Forall_map, Forall_forall.
  intros i _. now rewrite length_map, length_seq.
Qed.

(** X21, a floor under the report. When the fitness function is
    [styb_tang], the best fitness that [genetic_algorithm] reports is never
    below -39.5 times the dimension. *)
Theorem reported_fitness_floor G tape fuel el_p to_p dim epochs (m : Q) s' :
  genetic_algorithm G tape fuel el_p to_p dim epochs styb_tang start = Ok m s' ->
  (- (79 # 2) * inject_Z (Z.of_nat (Z.to_nat dim)) <= m)%Q.
Proof.
  intros H. unfold genetic_algorithm in H. apply bind_Ok in H as (pop & s & He & H).
  apply evolved_population_dimension in He.
  unfold best_fitness in H.
  apply bind_Ok in H as (S0 & t & Hs & H). apply sorted_Ok in Hs as (-> & _).
  apply bind_Ok in H as (b & t & Hb & H). apply getitem_Ok in Hb as [-> _].
  apply bind_Ok in H as (p & t & Hp & H). apply deref_Ok in Hp as [-> Hp].
  injection H as <- _.
  pose proof (Forall_lookup_1 _ _ _ _ He Hp) as Hl. cbv beta in Hl.
  pose proof (styb_sum_bound p) as Hsum. unfold len in Hsum. rewrite Hl in Hsum.
  unfold styb_tang.
  set (t := fold_left _ p 0%Q) in *. set (n := inject_Z _) in *. clearbody t n.
  change (1 / 2)%Q with (1 # 2)%Q. lra.
Qed.

Lemma reported_fitness_floor_witness :
  (- (79 # 2) * inject_Z (Z.of_nat (Z.to_nat 2))
   <= value_of (genetic_algorithm small_globals tape_generation 3 (1 # 2) (1 # 2) 2 2
                  styb_tang start) 0)%Q.
Proof.
  apply (reported_fitness_floor small_globals tape_generation 3 (1 # 2) (1 # 2) 2 2
           (value_of (genetic_algorithm small_globals tape_generation 3 (1 # 2) (1 # 2) 2 2
                        styb_tang start) 0%Q)
           (state_of even_run)).
  vm_compute. reflexivity.
Defined.
